(** * Call-site stack capture and network dispatchers of Playwright

  A shallow embedding of
  - [utils/stackTrace.ts]: [rewriteErrorMessage], [captureStackTrace],
    [splitErrorMessage];
  - [dispatchers/networkDispatchers.ts]: the [from] factories, the
    [WebSocketDispatcher] event forwarding and the [FetchRequestDispatcher]
    methods;
  together with the properties the specification states about them. *)

From Stdlib Require Import ZArith List String Ascii Bool Lia DecimalString.
From stdpp Require Import gmap strings list fin_maps.
Import ListNotations.

Set Warnings "-register-all".

Local Open Scope string_scope.
Local Open Scope Z_scope.

(** ** JavaScript string primitives used by the sources

  A JavaScript string is a sequence of code units; [string] plays that
  role, one [ascii] per code unit. Indices are [Z], as the sources compare
  them with [-1] and add to them. *)
Module JS.

Definition length (s : string) : Z := Z.of_nat (String.length s).

(** [s.indexOf(c)] for a one-code-unit needle: the index of the first
    occurrence, or [-1]. *)
Fixpoint indexOf_from (c : ascii) (s : string) (i : Z) : Z :=
  match s with
  | EmptyString => -1
  | String a s' => if Ascii.eqb a c then i else indexOf_from c s' (i + 1)
  end.

Definition indexOf (c : ascii) (s : string) : Z := indexOf_from c s 0.

(** Relative index of [slice]: negative counts from the end, all clamped
    to [0 .. len]. *)
Definition relIndex (len k : Z) : Z :=
  if k <? 0 then Z.max (len + k) 0 else Z.min k len.

(** [s.slice(start, end)]. *)
Definition slice (s : string) (start end_ : Z) : string :=
  let len := length s in
  let from := relIndex len start in
  let to := relIndex len end_ in
  substring (Z.to_nat from) (Z.to_nat (Z.max (to - from) 0)) s.

(** [s.slice(start)]. *)
Definition sliceFrom (s : string) (start : Z) : string :=
  slice s start (length s).

(** [s.substring(start)]: [start] is clamped to [0 .. len]. *)
Definition substringFrom (s : string) (start : Z) : string :=
  let len := length s in
  let from := Z.min (Z.max start 0) len in
  substring (Z.to_nat from) (Z.to_nat (len - from)) s.

(** [s.startsWith(p)]. *)
Fixpoint startsWith (p s : string) : bool :=
  match p, s with
  | EmptyString, _ => true
  | String a p', String b s' => Ascii.eqb a b && startsWith p' s'
  | String _ _, EmptyString => false
  end.

(** [s.includes(p)]. *)
Fixpoint includes (p s : string) : bool :=
  startsWith p s ||
  match s with
  | EmptyString => false
  | String _ s' => includes p s'
  end.

(** [s.split(sep)] for a one-code-unit separator. The result is never
    empty: [''.split('\n')] is [['']]. *)
Fixpoint split (sep : ascii) (s : string) : list string :=
  match s with
  | EmptyString => [EmptyString]
  | String c s' =>
      if Ascii.eqb c sep then EmptyString :: split sep s'
      else match split sep s' with
           | l :: ls => String c l :: ls
           | [] => [String c EmptyString]
           end
  end.

(** [lines.join(sep)]. *)
Fixpoint join (sep : string) (lines : list string) : string :=
  match lines with
  | [] => EmptyString
  | [l] => l
  | l :: ls => l +:+ sep +:+ join sep ls
  end.

(** [s[0]] of a non-empty string, as a one-code-unit string. *)
Definition first (s : string) : string := substring 0 1 s.

(** Truthiness of a string value: only [''] is falsy. *)
Definition truthy (s : string) : bool :=
  match s with EmptyString => false | String _ _ => true end.

Definition nl : ascii := "010"%char.
Definition NL : string := String nl EmptyString.

End JS.

(** ** utils/stackTrace.ts *)
Module StackTrace.

Record NameMessage := { nm_name : string; nm_message : string }.

Definition splitErrorMessage (message : string) : NameMessage :=
  let separationIdx := JS.indexOf ":"%char message in
  {| nm_name :=
       if negb (separationIdx =? -1) then JS.slice message 0 separationIdx
       else "";
     nm_message :=
       if negb (separationIdx =? -1) && (separationIdx + 2 <=? JS.length message)
       then JS.substringFrom message (separationIdx + 2)
       else message |}.

(** *** [rewriteErrorMessage]

    An [Error] object lives in the heap; the function mutates it in place and
    returns the reference it was given. [stack] is optional ([e.stack?]). *)
Record JsError := {
  name : string;
  message : string;
  stack : option string;
}.

Definition loc := positive.

Definition isFrameLine (l : string) : bool := JS.startsWith "    at " l.

Definition rewriteError (e : JsError) (newMessage : string) : JsError :=
  let lines :=
    List.filter isFrameLine
      (match stack e with Some st => JS.split JS.nl st | None => [] end) in
  let e1 := {| name := name e; message := newMessage; stack := stack e |} in
  let errorTitle := name e1 +:+ ": " +:+ message e1 in
  if negb (Nat.eqb (List.length lines) 0)
  then {| name := name e1; message := message e1;
          stack := Some (errorTitle +:+ JS.NL +:+ JS.join JS.NL lines) |}
  else e1.

Definition rewriteErrorMessage (h : gmap loc JsError) (e : loc) (newMessage : string)
  : gmap loc JsError * loc :=
  (alter (fun o => rewriteError o newMessage) e h, e).

(** *** [captureStackTrace] *)

(** [StackFrame] of the protocol: [line], [column] and [function] are
    optional. *)
Record StackFrame := {
  file : string;
  line : option Z;
  column : option Z;
  function : option string;
}.

(** What [stackUtils.parseLine] returns for a line it recognises; here the
    file is optional too. *)
Record StackLineData := {
  sl_file : option string;
  sl_line : option Z;
  sl_column : option Z;
  sl_function : option string;
}.

Record ParsedFrame := {
  frame : StackFrame;
  frameText : string;
  inClient : bool;
}.

Record ParsedStackTrace := {
  allFrames : list StackFrame;
  frames : list StackFrame;
  frameTexts : list string;
  apiName : string;
}.

(** The global state the function reads or writes. *)
Record Globals := {
  Error_stackTraceLimit : Z;
  process_cwd : string;
}.

(** State passing over [Globals]. *)
Definition M (A : Type) : Type := Globals -> A * Globals.

Definition ret {A} (a : A) : M A := fun g => (a, g).

Definition bind {A B} (m : M A) (k : A -> M B) : M B :=
  fun g => let (a, g1) := m g in k a g1.

Notation "'let*' x ':=' m 'in' k" := (bind m (fun x => k))
  (at level 10, x name, m at level 100, k at level 200).

Definition get_stackTraceLimit : M Z := fun g => (Error_stackTraceLimit g, g).

Definition set_stackTraceLimit (v : Z) : M unit :=
  fun g => (tt, {| Error_stackTraceLimit := v; process_cwd := process_cwd g |}).

Definition get_cwd : M string := fun g => (process_cwd g, g).

Section Capture.

(** The collaborators of [captureStackTrace] that are not part of the file:
    the [stack-utils] line parser, Node's [path] module, the directory
    constants computed from [__dirname], [isUnderTest()], the built-in
    [toLowerCase], and the engine's [new Error().stack] as a function of the
    frame limit in force when the error is created. *)
Variable parseLine : string -> option StackLineData.
Variable path_sep : string.
Variable path_resolve : string -> string -> string.
Variables CLIENT_LIB CLIENT_SRC TEST_LIB TEST_SRC : string.
Variable isUnderTest : bool.
Variable toLowerCase : string -> string.
Variable newErrorStack : Z -> string.

(** [path.join] of plain segments. *)
Definition path_join (segments : list string) : string :=
  JS.join path_sep segments.

Definition new_Error_stack : M string :=
  fun g => (newErrorStack (Error_stackTraceLimit g), g).

(** The callback of [stack.split('\n').map(...)]: [None] is [null]. *)
Definition parseFrame (cwd : string) (isTesting : bool) (line_ : string)
  : option ParsedFrame :=
  match parseLine line_ with
  | None => None
  | Some fr =>
    match sl_file fr with
    | None => None
    | Some f =>
      if negb (JS.truthy f) then None
      else if JS.startsWith "internal" f then None
      else if JS.includes (path_join ["node_modules"; "expect"]) f then None
      else
        let fileName := path_resolve cwd f in
        if isTesting &&
           JS.includes (path_join ["playwright"; "tests"; "config"; "coverage.js"]) fileName
        then None
        else
          let inClient_ :=
            (negb (JS.includes "test/index" fileName) &&
             negb (JS.includes "test\index" fileName)) &&
            (JS.startsWith CLIENT_LIB fileName
             || JS.startsWith CLIENT_SRC fileName
             || JS.startsWith TEST_LIB fileName
             || JS.startsWith TEST_SRC fileName) in
          Some {| frame := {| file := fileName;
                              line := sl_line fr;
                              column := sl_column fr;
                              function := sl_function fr |};
                  frameText := line_;
                  inClient := inClient_ |}
    end
  end.

(** [.map(...).filter(Boolean)] *)
Definition parseFrames (cwd : string) (isTesting : bool) (stack_ : string)
  : list ParsedFrame :=
  omap (parseFrame cwd isTesting) (JS.split JS.nl stack_).

(** The [for] loop, started at index [i] with [rest] the frames from [i] on:
    the first [i] with [parsedFrames[i].inClient && !parsedFrames[i+1].inClient]. *)
Fixpoint apiEntry (i : nat) (rest : list ParsedFrame) : option nat :=
  match rest with
  | p :: ((q :: _) as tl) =>
      if inClient p && negb (inClient q) then Some i else apiEntry (S i) tl
  | _ => None
  end.

(** [frame.function ? frame.function[0].toLowerCase() + frame.function.slice(1) : ''] *)
Definition apiNameOf (fr : StackFrame) : string :=
  match function fr with
  | Some f =>
      if JS.truthy f then toLowerCase (JS.first f) +:+ JS.sliceFrom f 1 else ""
  | None => ""
  end.

(** The loop's effect on [apiName] and [parsedFrames]. *)
Definition selectFrames (parsedFrames : list ParsedFrame)
  : string * list ParsedFrame :=
  match apiEntry 0 parsedFrames with
  | Some i =>
      match parsedFrames !! i with
      | Some p => (apiNameOf (frame p), drop (S i) parsedFrames)
      | None => ("", parsedFrames)
      end
  | None => ("", parsedFrames)
  end.

Definition parseStack (cwd : string) (stack_ : string) : ParsedStackTrace :=
  let isTesting := isUnderTest in
  let parsedFrames := parseFrames cwd isTesting stack_ in
  let allFrames_ := parsedFrames in
  let '(apiName_, parsedFrames') := selectFrames parsedFrames in
  {| allFrames := map frame allFrames_;
     frames := map frame parsedFrames';
     frameTexts := map frameText parsedFrames';
     apiName := apiName_ |}.

Definition captureStackTrace : M ParsedStackTrace :=
  let* stackTraceLimit := get_stackTraceLimit in
  let* _ := set_stackTraceLimit 30 in
  let* stack_ := new_Error_stack in
  let* _ := set_stackTraceLimit stackTraceLimit in
  let* cwd := get_cwd in
  ret (parseStack cwd stack_).

End Capture.

(** *** Notions the specification uses *)

(** The lines of [e.stack], none when there is no stack. *)
Definition stackLines (e : JsError) : list string :=
  match stack e with
  | Some st => JS.split JS.nl st
  | None => []
  end.

(** Frame [i] is in-client and the next-outer frame [i+1] is not. *)
Definition isTransition (pfs : list ParsedFrame) (i : nat) : Prop :=
  exists p q, pfs !! i = Some p /\ pfs !! S i = Some q /\
              inClient p = true /\ inClient q = false.

(** The deepest transition: the one closest to the top of the stack. *)
Definition deepestTransition (pfs : list ParsedFrame) (i : nat) : Prop :=
  isTransition pfs i /\ forall j, (j < i)%nat -> ~ isTransition pfs j.

(** [frames] as the specification words it: the boundary frame of the
    deepest transition is kept, and no other in-client frame is. *)
Definition keepsBoundary (pfs : list ParsedFrame) (r : ParsedStackTrace) : Prop :=
  forall i p, deepestTransition pfs i -> pfs !! i = Some p ->
              In (frame p) (frames r).

Definition dropsInternal (pfs : list ParsedFrame) (r : ParsedStackTrace) : Prop :=
  forall i, deepestTransition pfs i ->
  forall j q, j <> i -> pfs !! j = Some q -> inClient q = true ->
              ~ In (frame q) (frames r).

(** A name with its first code unit lower-cased; [''] stays ['']. *)
Definition lowerFirst (toLowerCase : string -> string) (f : string) : string :=
  match f with
  | EmptyString => ""
  | String c rest => toLowerCase (String c EmptyString) +:+ rest
  end.

End StackTrace.

(** ** dispatchers/networkDispatchers.ts *)
Module Dispatchers.

Definition guid := positive.

(** Identity of a server-side object (a request, a frame, a web socket ...). *)
Definition objId := positive.

Definition Buffer := list Byte.byte.

(** Values that travel as event arguments and parameters. *)
Inductive JsVal :=
| VUndefined
| VBool (b : bool)
| VNumber (z : Z)
| VString (s : string)
| VObject (fields : list (string * JsVal)).

(** The server-side objects this file wraps, with what the constructors
    read from them. A request refers to the request it was redirected from,
    if any; that request existed first. *)
Inductive Request := MkRequest {
  Request_id : objId;
  Request_frame : objId;
  Request_url : string;
  Request_resourceType : string;
  Request_method : string;
  Request_postDataBuffer : option Buffer;
  Request_headers : JsVal;
  Request_isNavigationRequest : bool;
  Request_redirectedFrom : option Request;
}.

Record Response := {
  Response_id : objId;
  Response_request : Request;
  Response_url : string;
  Response_status : Z;
  Response_statusText : string;
  Response_headers : JsVal;
  Response_timing : JsVal;
}.

Record Route := {
  Route_id : objId;
  Route_request : Request;
}.

Record WebSocket := {
  WebSocket_id : objId;
  WebSocket_url : string;
}.

Record FetchRequest := {
  FetchRequest_id : objId;
}.

Inductive Initializer :=
| FrameInitializer
| RequestInitializer (frame : guid) (url resourceType method : string)
    (postData : option string) (headers : JsVal) (isNavigationRequest : bool)
    (redirectedFrom : option guid)
| ResponseInitializer (request : guid) (url : string) (status : Z)
    (statusText : string) (headers timing : JsVal)
| RouteInitializer (request : guid)
| WebSocketInitializer (url : string)
| FetchRequestInitializer.

(** Messages pushed to the client. *)
Inductive WireMessage :=
| Create (g : guid) (type : string) (initializer : Initializer)
| Dispose (g : guid)
| Event (g : guid) (method : string) (params : JsVal).

Record Dispatcher := {
  d_guid : guid;
  d_type : string;
  d_parentScope : guid;
  d_childDispatchers : gset guid;
  _object : objId;
  d_isScope : bool;
  _disposed : bool;
}.

Inductive EventName :=
| WebSocket_FrameSent
| WebSocket_FrameReceived
| WebSocket_SocketError
| WebSocket_Close
| FetchRequest_Dispose.

(** The closures this file registers as listeners, each with its captured
    [this]. *)
Inductive Handler :=
| OnFrameSent (this : guid)
| OnFrameReceived (this : guid)
| OnSocketError (this : guid)
| OnClose (this : guid)
| OnDispose (this : guid).

Record Listener := {
  l_event : EventName;
  l_once : bool;
  l_handler : Handler;
}.

(** The dispatcher connection and the server objects' mutable parts:
    [heap] holds every dispatcher object created, under its guid; [table] is
    the guid table, the dispatchers that are registered; [dispatcherSymbol]
    records, for a wrapped object, its dispatcher; [wire] is what was pushed
    to the client, oldest first; [listeners] are the listeners of each
    wrapped object, in registration order; [fetchResponses] is the map of
    that name of each [FetchRequest]. *)
Record Server := {
  heap : gmap guid Dispatcher;
  table : gset guid;
  dispatcherSymbol : gmap objId guid;
  nextGuid : guid;
  wire : list WireMessage;
  listeners : gmap objId (list Listener);
  fetchResponses : gmap objId (gmap string Buffer);
}.

Definition emptyServer : Server :=
  {| heap := ∅; table := ∅; dispatcherSymbol := ∅; nextGuid := 1%positive;
     wire := []; listeners := ∅; fetchResponses := ∅ |}.

Definition EventName_eqb (a b : EventName) : bool :=
  match a, b with
  | WebSocket_FrameSent, WebSocket_FrameSent
  | WebSocket_FrameReceived, WebSocket_FrameReceived
  | WebSocket_SocketError, WebSocket_SocketError
  | WebSocket_Close, WebSocket_Close
  | FetchRequest_Dispose, FetchRequest_Dispose => true
  | _, _ => false
  end.

(** *** The base class

    [dispatcher.ts] is not among the sources. *)

(** Modelled from the spec: [existingDispatcher] of dispatchers/dispatcher.ts
    is missing. A guid identifies one object pair and is generated once; the
    lookup gives the dispatcher registered for the wrapped object, or nothing
    ([undefined]). *)
Definition existingDispatcher (sv : Server) (object : objId) : option guid :=
  dispatcherSymbol sv !! object.

Definition addChild (g : guid) (d : Dispatcher) : Dispatcher :=
  {| d_guid := d_guid d; d_type := d_type d; d_parentScope := d_parentScope d;
     d_childDispatchers := {[g]} ∪ d_childDispatchers d;
     _object := _object d; d_isScope := d_isScope d; _disposed := _disposed d |}.

Definition removeChild (g : guid) (d : Dispatcher) : Dispatcher :=
  {| d_guid := d_guid d; d_type := d_type d; d_parentScope := d_parentScope d;
     d_childDispatchers := d_childDispatchers d ∖ {[g]};
     _object := _object d; d_isScope := d_isScope d; _disposed := _disposed d |}.

Definition markDisposed (d : Dispatcher) : Dispatcher :=
  {| d_guid := d_guid d; d_type := d_type d; d_parentScope := d_parentScope d;
     d_childDispatchers := d_childDispatchers d;
     _object := _object d; d_isScope := d_isScope d; _disposed := true |}.

(** Modelled from the spec: the constructor of the base class [Dispatcher]
    (the [super(scope, object, type, initializer, isScope)] calls) is
    missing. It allocates a guid, registers the dispatcher in the guid table,
    for its wrapped object and under the parent's child set, and emits
    [__create__]. *)
Definition Dispatcher_new (sv : Server) (scope : guid) (object : objId)
    (type : string) (initializer : Initializer) (isScope : bool)
  : Server * guid :=
  let g := nextGuid sv in
  let d := {| d_guid := g; d_type := type; d_parentScope := scope;
              d_childDispatchers := ∅; _object := object;
              d_isScope := isScope; _disposed := false |} in
  ({| heap := <[g := d]> (alter (addChild g) scope (heap sv));
      table := {[g]} ∪ table sv;
      dispatcherSymbol := <[object := g]> (dispatcherSymbol sv);
      nextGuid := Pos.succ g;
      wire := wire sv ++ [Create g type initializer];
      listeners := listeners sv;
      fetchResponses := fetchResponses sv |}, g).

Definition setWire (sv : Server) (w : list WireMessage) : Server :=
  {| heap := heap sv; table := table sv;
     dispatcherSymbol := dispatcherSymbol sv; nextGuid := nextGuid sv;
     wire := w; listeners := listeners sv;
     fetchResponses := fetchResponses sv |}.

Definition setListeners (sv : Server) (ls : gmap objId (list Listener)) : Server :=
  {| heap := heap sv; table := table sv;
     dispatcherSymbol := dispatcherSymbol sv; nextGuid := nextGuid sv;
     wire := wire sv; listeners := ls;
     fetchResponses := fetchResponses sv |}.

Definition setFetchResponses (sv : Server) (fr : gmap objId (gmap string Buffer))
  : Server :=
  {| heap := heap sv; table := table sv;
     dispatcherSymbol := dispatcherSymbol sv; nextGuid := nextGuid sv;
     wire := wire sv; listeners := listeners sv;
     fetchResponses := fr |}.

(** Modelled from the spec: [_dispatchEvent] of the base class is missing.
    It pushes the event over the wire as [{ guid, method, params }]. *)
Definition Dispatcher_dispatchEvent (sv : Server) (this : guid)
    (method : string) (params : JsVal) : Server :=
  setWire sv (wire sv ++ [Event this method params]).

(** Modelled from the spec: [_dispose] of the base class is missing. The
    dispatcher becomes disposed, leaves its parent's child set and the guid
    table, and [__dispose__] is emitted. The cascade applies this same
    routine to each child first; [step] below takes each application as a
    step of its own. *)
Definition Dispatcher_dispose (sv : Server) (this : guid) : Server :=
  let parent := match heap sv !! this with
                | Some d => d_parentScope d
                | None => this
                end in
  {| heap := alter markDisposed this (alter (removeChild this) parent (heap sv));
     table := table sv ∖ {[this]};
     dispatcherSymbol := dispatcherSymbol sv;
     nextGuid := nextGuid sv;
     wire := wire sv ++ [Dispose this];
     listeners := listeners sv;
     fetchResponses := fetchResponses sv |}.

(** [this._disposed] *)
Definition isDisposed (sv : Server) (this : guid) : bool :=
  match heap sv !! this with
  | Some d => _disposed d
  | None => false
  end.

(** *** Event emitters of the wrapped objects: [on], [once], [emit] *)

Definition listenersOf (sv : Server) (object : objId) : list Listener :=
  default [] (listeners sv !! object).

Definition on (sv : Server) (object : objId) (ev : EventName) (h : Handler)
  : Server :=
  setListeners sv
    (<[object := (listenersOf sv object
                  ++ [{| l_event := ev; l_once := false; l_handler := h |}])%list]>
       (listeners sv)).

Definition once (sv : Server) (object : objId) (ev : EventName) (h : Handler)
  : Server :=
  setListeners sv
    (<[object := (listenersOf sv object
                  ++ [{| l_event := ev; l_once := true; l_handler := h |}])%list]>
       (listeners sv)).

(** The bodies of the listeners registered in this file. *)
Definition runHandler (h : Handler) (arg : JsVal) (sv : Server) : Server :=
  match h with
  | OnFrameSent this => Dispatcher_dispatchEvent sv this "frameSent" arg
  | OnFrameReceived this => Dispatcher_dispatchEvent sv this "frameReceived" arg
  | OnSocketError this =>
      Dispatcher_dispatchEvent sv this "socketError" (VObject [("error", arg)])
  | OnClose this => Dispatcher_dispatchEvent sv this "close" (VObject [])
  | OnDispose this =>
      if negb (isDisposed sv this) then Dispatcher_dispose sv this else sv
  end.

(** [object.emit(ev, arg)]: the listeners of [ev] run in registration order;
    a [once] listener is removed before it runs. *)
Definition emit (sv : Server) (object : objId) (ev : EventName) (arg : JsVal)
  : Server :=
  let ls := listenersOf sv object in
  let fired := List.filter (fun l => EventName_eqb (l_event l) ev) ls in
  let kept :=
    List.filter (fun l => negb (EventName_eqb (l_event l) ev && l_once l)) ls in
  fold_left (fun s l => runHandler (l_handler l) arg s) fired
    (setListeners sv (<[object := kept]> (listeners sv))).

(** *** The dispatchers of this file *)

(** Modelled from the spec: [FrameDispatcher.from] of
    dispatchers/frameDispatcher.ts is missing; it is taken to follow the
    pattern of the factories below, for a dispatcher of type [Frame]. *)
Definition FrameDispatcher_from (sv : Server) (scope : guid) (frame : objId)
  : Server * guid :=
  match existingDispatcher sv frame with
  | Some result => (sv, result)
  | None => Dispatcher_new sv scope frame "Frame" FrameInitializer false
  end.

(** [Buffer.toString('base64')] *)
Definition b64alphabet : string :=
  "ABCDEFGHIJKLMNOPQRSTUVWXYZabcdefghijklmnopqrstuvwxyz0123456789+/".

Definition b64digit (n : N) : ascii :=
  default "="%char (String.get (N.to_nat n) b64alphabet).

Fixpoint base64 (buf : Buffer) : string :=
  match buf with
  | [] => ""
  | [a] =>
      let x := Byte.to_N a in
      String (b64digit (x / 4)) (String (b64digit ((x mod 4) * 16)) "==")
  | [a; b] =>
      let x := Byte.to_N a in
      let y := Byte.to_N b in
      String (b64digit (x / 4))
        (String (b64digit ((x mod 4) * 16 + y / 16))
           (String (b64digit ((y mod 16) * 4)) "="))
  | a :: b :: c :: rest =>
      let x := Byte.to_N a in
      let y := Byte.to_N b in
      let z := Byte.to_N c in
      String (b64digit (x / 4))
        (String (b64digit ((x mod 4) * 16 + y / 16))
           (String (b64digit ((y mod 16) * 4 + z / 64))
              (String (b64digit (z mod 64)) (base64 rest))))
  end%N.

(** [RequestDispatcher.from], with the private constructor inlined at the
    [new]: the initializer's [frame] and [redirectedFrom] are evaluated, in
    this order, before the base constructor runs. [fromNullable] is unfolded
    at its call, where the function recurses on the request redirected
    from. *)
Fixpoint RequestDispatcher_from (sv : Server) (scope : guid) (request : Request)
  : Server * guid :=
  match existingDispatcher sv (Request_id request) with
  | Some result => (sv, result)
  | None =>
      let postData := Request_postDataBuffer request in
      let '(sv1, frame) := FrameDispatcher_from sv scope (Request_frame request) in
      let '(sv2, redirectedFrom) :=
        match Request_redirectedFrom request with
        | Some r =>
            let '(s, d) := RequestDispatcher_from sv1 scope r in (s, Some d)
        | None => (sv1, None)
        end in
      Dispatcher_new sv2 scope (Request_id request) "Request"
        (RequestInitializer frame (Request_url request)
           (Request_resourceType request) (Request_method request)
           (option_map base64 postData) (Request_headers request)
           (Request_isNavigationRequest request) redirectedFrom)
        false
  end.

Definition RequestDispatcher_fromNullable (sv : Server) (scope : guid)
    (request : option Request) : Server * option guid :=
  match request with
  | Some r => let '(s, d) := RequestDispatcher_from sv scope r in (s, Some d)
  | None => (sv, None)
  end.

Definition ResponseDispatcher_from (sv : Server) (scope : guid)
    (response : Response) : Server * guid :=
  match existingDispatcher sv (Response_id response) with
  | Some result => (sv, result)
  | None =>
      let '(sv1, request) :=
        RequestDispatcher_from sv scope (Response_request response) in
      Dispatcher_new sv1 scope (Response_id response) "Response"
        (ResponseInitializer request (Response_url response)
           (Response_status response) (Response_statusText response)
           (Response_headers response) (Response_timing response))
        false
  end.

Definition RouteDispatcher_from (sv : Server) (scope : guid) (route : Route)
  : Server * guid :=
  match existingDispatcher sv (Route_id route) with
  | Some result => (sv, result)
  | None =>
      let '(sv1, request) :=
        RequestDispatcher_from sv scope (Route_request route) in
      Dispatcher_new sv1 scope (Route_id route) "Route"
        (RouteInitializer request) false
  end.

(** [new WebSocketDispatcher(scope, webSocket)] *)
Definition WebSocketDispatcher_new (sv : Server) (scope : guid)
    (webSocket : WebSocket) : Server * guid :=
  let '(sv0, this) :=
    Dispatcher_new sv scope (WebSocket_id webSocket) "WebSocket"
      (WebSocketInitializer (WebSocket_url webSocket)) false in
  let o := WebSocket_id webSocket in
  let sv1 := on sv0 o WebSocket_FrameSent (OnFrameSent this) in
  let sv2 := on sv1 o WebSocket_FrameReceived (OnFrameReceived this) in
  let sv3 := on sv2 o WebSocket_SocketError (OnSocketError this) in
  let sv4 := on sv3 o WebSocket_Close (OnClose this) in
  (sv4, this).

Definition FetchRequestDispatcher_from (sv : Server) (scope : guid)
    (request : FetchRequest) : Server * guid :=
  match existingDispatcher sv (FetchRequest_id request) with
  | Some result => (sv, result)
  | None =>
      let '(sv0, this) :=
        Dispatcher_new sv scope (FetchRequest_id request) "FetchRequest"
          FetchRequestInitializer true in
      (once sv0 (FetchRequest_id request) FetchRequest_Dispose (OnDispose this),
       this)
  end.

(** Outcome of an [async] method. *)
Inductive Promise (A : Type) :=
| Resolved (a : A)
| Rejected (error : string).
Arguments Resolved {A} a.
Arguments Rejected {A} error.

Record FetchResponseBodyResult := { binary : option string }.

(** [fetchResponseBody(params)]; [this_object] is [this._object]. *)
Definition FetchRequestDispatcher_fetchResponseBody (sv : Server)
    (this_object : objId) (fetchUid : string)
  : Promise FetchResponseBodyResult :=
  let buffer := default ∅ (fetchResponses sv !! this_object) !! fetchUid in
  Resolved {| binary := match buffer with
                        | Some b => Some (base64 b)
                        | None => None
                        end |}.

(** [disposeFetchResponse(params)] *)
Definition FetchRequestDispatcher_disposeFetchResponse (sv : Server)
    (this_object : objId) (fetchUid : string) : Server * Promise unit :=
  (setFetchResponses sv
     (alter (delete fetchUid) this_object (fetchResponses sv)),
   Resolved tt).

(** The protocol event that corresponds to an event of a web socket. *)
Definition protocolEvent (this : guid) (ev : EventName) (arg : JsVal)
  : option WireMessage :=
  match ev with
  | WebSocket_FrameSent => Some (Event this "frameSent" arg)
  | WebSocket_FrameReceived => Some (Event this "frameReceived" arg)
  | WebSocket_SocketError =>
      Some (Event this "socketError" (VObject [("error", arg)]))
  | WebSocket_Close => Some (Event this "close" (VObject []))
  | FetchRequest_Dispose => None
  end.

(** How many [__dispose__] messages for [g] went over the wire. *)
Definition isDisposeOf (g : guid) (m : WireMessage) : bool :=
  match m with
  | Dispose g' => Pos.eqb g g'
  | _ => false
  end.

Definition disposeCount (g : guid) (w : list WireMessage) : nat :=
  List.length (List.filter (isDisposeOf g) w).

(** The [this] a listener has captured. *)
Definition handlerThis (h : Handler) : guid :=
  match h with
  | OnFrameSent this | OnFrameReceived this | OnSocketError this
  | OnClose this | OnDispose this => this
  end.

(** What can happen to the server between two observations. *)
Inductive Action :=
| NewFetchRequestDispatcher (scope : guid) (request : FetchRequest)
| NewWebSocketDispatcher (scope : guid) (webSocket : WebSocket)
| NewRequestDispatcher (scope : guid) (request : Request)
| NewResponseDispatcher (scope : guid) (response : Response)
| NewRouteDispatcher (scope : guid) (route : Route)
| Emit (object : objId) (ev : EventName) (arg : JsVal)
| Cascade (g : guid).

(** One action. The cascade of a parent's disposal, or the teardown of the
    connection, reaches the dispatchers that are still in the guid table. *)
Definition step (sv : Server) (a : Action) : Server :=
  match a with
  | NewFetchRequestDispatcher scope r => fst (FetchRequestDispatcher_from sv scope r)
  | NewWebSocketDispatcher scope w => fst (WebSocketDispatcher_new sv scope w)
  | NewRequestDispatcher scope r => fst (RequestDispatcher_from sv scope r)
  | NewResponseDispatcher scope r => fst (ResponseDispatcher_from sv scope r)
  | NewRouteDispatcher scope r => fst (RouteDispatcher_from sv scope r)
  | Emit o ev arg => emit sv o ev arg
  | Cascade g => if decide (g ∈ table sv) then Dispatcher_dispose sv g else sv
  end.

Definition run (sv : Server) (actions : list Action) : Server :=
  fold_left step actions sv.

(** The objects a request brings along: itself, its frame, and those of the
    requests it was redirected from. *)
Fixpoint requestObjects (r : Request) : list objId :=
  match r with
  | MkRequest id fr _ _ _ _ _ _ rf =>
      id :: fr :: match rf with
                  | Some r' => requestObjects r'
                  | None => []
                  end
  end.

(** Distinct objects have distinct identities: a request is not its own
    frame and is none of the objects of the requests before it. *)
Fixpoint wfRequest (r : Request) : Prop :=
  match r with
  | MkRequest id fr _ _ _ _ _ _ rf =>
      id <> fr /\
      match rf with
      | Some r' => ~ In id (requestObjects r') /\ wfRequest r'
      | None => True
      end
  end.

(** Actions that create dispatchers through the [from] factories only, for
    well-formed objects. *)
Definition viaFactories (a : Action) : Prop :=
  match a with
  | NewFetchRequestDispatcher _ _ => True
  | NewWebSocketDispatcher _ _ => False
  | NewRequestDispatcher _ r => wfRequest r
  | NewResponseDispatcher _ r =>
      ~ In (Response_id r) (requestObjects (Response_request r)) /\
      wfRequest (Response_request r)
  | NewRouteDispatcher _ r =>
      ~ In (Route_id r) (requestObjects (Route_request r)) /\
      wfRequest (Route_request r)
  | Emit _ _ _ => True
  | Cascade _ => True
  end.

(** At most one dispatcher per wrapped object. *)
Definition onePerObject (sv : Server) : Prop :=
  forall g1 g2 d1 d2,
    heap sv !! g1 = Some d1 -> heap sv !! g2 = Some d2 ->
    _object d1 = _object d2 -> g1 = g2.

(** [g] is a dispatcher of [sv] that wraps [object]. *)
Definition wraps (sv : Server) (g : guid) (object : objId) : Prop :=
  exists d, heap sv !! g = Some d /\ d_guid d = g /\ _object d = object.

(** What [existingDispatcher] finds is a dispatcher that wraps the object. *)
Definition SymbolSound (sv : Server) : Prop :=
  forall o g, dispatcherSymbol sv !! o = Some g -> wraps sv g o.

(** A factory called in [sv] gave [res]: the guid it returns is a dispatcher
    of the resulting state that wraps [object], and a dispatcher that did not
    exist in [sv] when the object had none there. *)
Definition givesDispatcher (sv : Server) (res : Server * guid) (object : objId)
  : Prop :=
  wraps (fst res) (snd res) object /\
  (existingDispatcher sv object = None -> heap sv !! snd res = None).

(** [res] holds the one dispatcher that wraps [object]. *)
Definition theDispatcherOf (res : Server * guid) (object : objId) : Prop :=
  wraps (fst res) (snd res) object /\
  forall g, wraps (fst res) g object -> g = snd res.

(** What holds of every state the server reaches: guids are allocated
    upwards; a dispatcher in the guid table exists and is not disposed; a
    [__dispose__] went out for exactly the disposed dispatchers, once; and
    listeners belong to existing dispatchers. *)
Record Inv (sv : Server) : Prop := {
  inv_fresh : forall g, is_Some (heap sv !! g) -> (g < nextGuid sv)%positive;
  inv_table : forall g, g ∈ table sv ->
                is_Some (heap sv !! g) /\ isDisposed sv g = false;
  inv_count : forall g, disposeCount g (wire sv)
                        = if isDisposed sv g then 1%nat else 0%nat;
  inv_listeners : forall o ls l, listeners sv !! o = Some ls -> In l ls ->
                    is_Some (heap sv !! handlerThis (l_handler l));
}.

(** [sv'] comes after [sv]: it is a good state, no dispatcher is lost and
    none leaves the disposed state. *)
Record Ext (sv sv' : Server) : Prop := {
  ext_inv : Inv sv';
  ext_heap : forall g, is_Some (heap sv !! g) -> is_Some (heap sv' !! g);
  ext_disposed : forall g, isDisposed sv g = true -> isDisposed sv' g = true;
}.

(** Every dispatcher is the one registered for the object it wraps. *)
Definition Registered (sv : Server) : Prop :=
  forall g d, heap sv !! g = Some d -> dispatcherSymbol sv !! _object d = Some g.

End Dispatchers.

(** ** The client connection's pending calls *)
Module Connection.

(** Modelled from the spec: the client [Connection] (client/connection.ts) is
    missing. A pending call is [{ id, resolve, reject, stackTrace/apiName }];
    the connection keeps the last id it allocated, the table of pending
    calls and what it handed to the transport. *)
Record PendingCall := {
  pc_id : Z;
  pc_apiName : string;
  pc_frames : list StackTrace.StackFrame;
}.

Record Request := {
  rq_id : Z;
  rq_guid : string;
  rq_method : string;
}.

Record Connection := {
  lastId : Z;
  callbacks : list PendingCall;
  sent : list Request;
}.

Definition newConnection : Connection :=
  {| lastId := 0; callbacks := []; sent := [] |}.

(** Modelled from the spec: [sendMessageToServer] allocates the next id,
    stores a pending-call entry with the captured stack trace and API name,
    and hands the payload to the transport. *)
Definition sendMessageToServer (c : Connection) (guid method : string)
    (trace : StackTrace.ParsedStackTrace) : Connection * Z :=
  let id := lastId c + 1 in
  ({| lastId := id;
      callbacks := (callbacks c ++
                    [{| pc_id := id;
                        pc_apiName := StackTrace.apiName trace;
                        pc_frames := StackTrace.frames trace |}])%list;
      sent := (sent c ++
               [{| rq_id := id; rq_guid := guid; rq_method := method |}])%list |},
   id).

(** Modelled from the spec: [dispatch] of a message with an id looks up and
    removes the pending-call entry; a message whose id has no entry is
    ignored. *)
Definition dispatchResponse (c : Connection) (id : Z)
  : Connection * option PendingCall :=
  (match List.find (fun p => pc_id p =? id) (callbacks c) with
   | Some _ =>
       {| lastId := lastId c;
          callbacks := List.filter (fun p => negb (pc_id p =? id)) (callbacks c);
          sent := sent c |}
   | None => c
   end,
   List.find (fun p => pc_id p =? id) (callbacks c)).

(** Modelled from the spec: on a transport error all pending calls are
    rejected. *)
Definition close (c : Connection) : Connection :=
  {| lastId := lastId c; callbacks := []; sent := sent c |}.

Inductive Op :=
| Send (guid method : string) (trace : StackTrace.ParsedStackTrace)
| Receive (id : Z)
| Close.

Definition step (c : Connection) (o : Op) : Connection :=
  match o with
  | Send guid method trace => fst (sendMessageToServer c guid method trace)
  | Receive id => fst (dispatchResponse c id)
  | Close => close c
  end.

Definition run (ops : list Op) : Connection :=
  fold_left step ops newConnection.

(** Later entries of a list of ids are larger. *)
Definition increasing (ids : list Z) : Prop :=
  forall (i j : nat) (a b : Z),
    (i < j)%nat -> ids !! i = Some a -> ids !! j = Some b -> a < b.

(** What holds of a connection at any time: the ids in use are at most the
    last one allocated, no two pending calls share an id, and requests went
    out with increasing ids. *)
Record PendingInv (c : Connection) : Prop := {
  pi_pending : forall p, In p (callbacks c) -> pc_id p <= lastId c;
  pi_nodup : List.NoDup (map pc_id (callbacks c));
  pi_sent : forall r, In r (sent c) -> rq_id r <= lastId c;
  pi_increasing : increasing (map rq_id (sent c));
}.

End Connection.

(** ** A concrete environment, used to run the definitions *)
Module Sample.
Import StackTrace.

Definition line_click : string := "    at Page.click (/pw/lib/client/page.js:20:9)".
Definition line_handler : string := "    at handler (/home/u/a.spec.js:8:3)".
Definition line_emit : string := "    at Page.emit (/pw/lib/client/page.js:30:1)".
Definition line_anon : string := "    at /pw/lib/client/frame.js:7:2".

(** What the line parser gives on the sample lines. *)
Definition parseLine (l : string) : option StackLineData :=
  if String.eqb l line_click then
    Some {| sl_file := Some "/pw/lib/client/page.js"; sl_line := Some 20;
            sl_column := Some 9; sl_function := Some "Page.click" |}
  else if String.eqb l line_handler then
    Some {| sl_file := Some "/home/u/a.spec.js"; sl_line := Some 8;
            sl_column := Some 3; sl_function := Some "handler" |}
  else if String.eqb l line_emit then
    Some {| sl_file := Some "/pw/lib/client/page.js"; sl_line := Some 30;
            sl_column := Some 1; sl_function := Some "Page.emit" |}
  else if String.eqb l line_anon then
    Some {| sl_file := Some "/pw/lib/client/frame.js"; sl_line := Some 7;
            sl_column := Some 2; sl_function := None |}
  else None.

Definition path_sep : string := "/".

(** The sample files are absolute paths. *)
Definition path_resolve (cwd f : string) : string :=
  if JS.startsWith "/" f then f else cwd +:+ "/" +:+ f.

Definition CLIENT_LIB : string := "/pw/lib/client".
Definition CLIENT_SRC : string := "/pw/src/client".
Definition TEST_LIB : string := "/pw/lib/test".
Definition TEST_SRC : string := "/pw/src/test".

Definition lowerAscii (c : ascii) : ascii :=
  let n := nat_of_ascii c in
  if (65 <=? n)%nat && (n <=? 90)%nat then ascii_of_nat (n + 32) else c.

Fixpoint toLowerCase (s : string) : string :=
  match s with
  | EmptyString => EmptyString
  | String c s' => String (lowerAscii c) (toLowerCase s')
  end.

(** The engine's stack for a given call stack: a header and at most [limit]
    frame lines. *)
Definition stackOf (callStack : list string) (limit : Z) : string :=
  JS.join JS.NL ("Error" :: take (Z.to_nat limit) callStack).

Definition globals : Globals :=
  {| Error_stackTraceLimit := 10; process_cwd := "/home/u" |}.

Definition capture (callStack : list string) : M ParsedStackTrace :=
  captureStackTrace parseLine path_sep path_resolve
    CLIENT_LIB CLIENT_SRC TEST_LIB TEST_SRC false toLowerCase
    (stackOf callStack).

Definition callStack : list string := [line_click; line_handler; line_emit].

(** The frames parsed from the snapshot of [callStack]. *)
Definition parsed : list ParsedFrame :=
  parseFrames parseLine path_sep path_resolve
    CLIENT_LIB CLIENT_SRC TEST_LIB TEST_SRC (process_cwd globals) false
    (stackOf callStack 30).

Definition frame_click : StackFrame :=
  {| file := "/pw/lib/client/page.js"; line := Some 20; column := Some 9;
     function := Some "Page.click" |}.
Definition frame_handler : StackFrame :=
  {| file := "/home/u/a.spec.js"; line := Some 8; column := Some 3;
     function := Some "handler" |}.
Definition frame_emit : StackFrame :=
  {| file := "/pw/lib/client/page.js"; line := Some 30; column := Some 1;
     function := Some "Page.emit" |}.
Definition frame_anon : StackFrame :=
  {| file := "/pw/lib/client/frame.js"; line := Some 7; column := Some 2;
     function := None |}.

End Sample.

(** ** packages/playwright-test/src/index.ts: the report of pending calls *)
Module Reporting.
Import StackTrace.

(** The text of an integer in a template literal. *)
Definition numberToString (n : Z) : string :=
  NilZero.string_of_int (Z.to_int n).

(** [n || 1] for an optional number: [undefined] and [0] give [1]. *)
Definition orOne (n : option Z) : Z :=
  match n with
  | Some v => if v =? 0 then 1 else v
  | None => 1
  end.

Section Format.

(** Node's [path.relative] and [path.basename]. *)
Variable path_relative : string -> string -> string.
Variable path_basename : string -> string.

(** [formatStackFrame(frame)]; [cwd] is [process.cwd()]. *)
Definition formatStackFrame (cwd : string) (frame_ : StackFrame) : string :=
  let file_ :=
    let relative := path_relative cwd (file frame_) in
    if JS.truthy relative then relative else path_basename (file frame_) in
  file_ +:+ ":" +:+ numberToString (orOne (line frame_))
        +:+ ":" +:+ numberToString (orOne (column frame_)).

(** The callback of [calls.map(...)]. *)
Definition formatPendingCall (cwd : string) (call : ParsedStackTrace) : string :=
  let frame_ :=
    match frames call with
    | f :: _ => formatStackFrame cwd f
    | [] => "<unknown>"
    end in
  "  - " +:+ apiName call +:+ " at " +:+ frame_ +:+ JS.NL.

Definition formatPendingCalls (cwd : string) (calls : list ParsedStackTrace)
  : string :=
  if Nat.eqb (List.length calls) 0 then ""
  else ("Pending operations:" +:+ JS.NL)
       +:+ JS.join "" (map (formatPendingCall cwd) calls) +:+ JS.NL.

(** The error a test carries: [message], [stack] and [value] are optional. *)
Record TestError := {
  te_message : option string;
  te_stack : option string;
  te_value : option string;
}.

(** Truthiness of an optional string: [undefined] and [''] are falsy. *)
Definition truthyOpt (s : option string) : bool :=
  match s with
  | Some v => JS.truthy v
  | None => false
  end.

(** [prependToError] of the [context] fixture; [calls] is what
    [pendingProtocolCalls()] returns. *)
Definition prependToError (cwd : string) (status : string)
    (calls : list ParsedStackTrace) : string :=
  if String.eqb status "timedOut" then formatPendingCalls cwd calls else "".

(** The [if (prependToError)] block of the fixture, as a function of
    [testInfo.error] before it ([None] is [undefined]). *)
Definition prependPendingCalls (cwd : string) (status : string)
    (calls : list ParsedStackTrace) (error : option TestError)
  : option TestError :=
  let prependToError_ := prependToError cwd status calls in
  if JS.truthy prependToError_ then
    match error with
    | None =>
        Some {| te_message := None; te_stack := None;
                te_value := Some prependToError_ |}
    | Some e =>
        if truthyOpt (te_message e) then
          Some {| te_message := option_map (String.append prependToError_)
                                  (te_message e);
                  te_stack := if truthyOpt (te_stack e)
                              then option_map (String.append prependToError_)
                                     (te_stack e)
                              else te_stack e;
                  te_value := te_value e |}
        else Some e
    end
  else error.

End Format.

(** [path.relative] and [path.basename] on the sample files: a file under
    the working directory loses that prefix. *)
Definition sample_relative (cwd f : string) : string :=
  if JS.startsWith (cwd +:+ "/") f
  then JS.substringFrom f (JS.length cwd + 1)
  else f.

Definition sample_basename (f : string) : string := f.

End Reporting.

(** ** Notions used to state further properties of the dispatchers *)
Module DispatcherNotions.
Import Dispatchers.

(** The guids announced by [__create__] in a stretch of the wire. *)
Definition createdGuids (w : list WireMessage) : list guid :=
  flat_map (fun m => match m with
                     | Create g _ _ => [g]
                     | _ => []
                     end) w.

(** The dispatchers an initializer refers to. *)
Definition initializerRefs (i : Initializer) : list guid :=
  match i with
  | RequestInitializer frame _ _ _ _ _ _ redirectedFrom =>
      frame :: match redirectedFrom with
               | Some g => [g]
               | None => []
               end
  | ResponseInitializer request _ _ _ _ _ => [request]
  | RouteInitializer request => [request]
  | FrameInitializer | WebSocketInitializer _ | FetchRequestInitializer => []
  end.

(** Every [__create__] of [w] refers only to dispatchers in [seen] or
    created earlier in [w]. *)
Fixpoint createBeforeUse (seen : list guid) (w : list WireMessage) : Prop :=
  match w with
  | [] => True
  | Create g _ init :: w' =>
      (forall r, In r (initializerRefs init) -> In r seen) /\
      createBeforeUse (g :: seen) w'
  | _ :: w' => createBeforeUse seen w'
  end.

(** The object emits the events of [evs], one after the other. *)
Definition emitAll (sv : Server) (object : objId)
    (evs : list (EventName * JsVal)) : Server :=
  fold_left (fun s e => emit s object (fst e) (snd e)) evs sv.

(** The listeners the constructor of [WebSocketDispatcher] registers. *)
Definition webSocketListeners (this : guid) : list Listener :=
  [ {| l_event := WebSocket_FrameSent; l_once := false;
       l_handler := OnFrameSent this |};
    {| l_event := WebSocket_FrameReceived; l_once := false;
       l_handler := OnFrameReceived this |};
    {| l_event := WebSocket_SocketError; l_once := false;
       l_handler := OnSocketError this |};
    {| l_event := WebSocket_Close; l_once := false;
       l_handler := OnClose this |} ].

(** The protocol events that correspond to [evs], in order. *)
Definition protocolEvents (this : guid) (evs : list (EventName * JsVal))
  : list WireMessage :=
  omap (fun e => protocolEvent this (fst e) (snd e)) evs.

(** The wire is in order, and every registered dispatcher was announced. *)
Record Announced (sv : Server) : Prop := {
  an_ordered : createBeforeUse [] (wire sv);
  an_symbol : forall o g, dispatcherSymbol sv !! o = Some g ->
                          In g (createdGuids (wire sv));
}.

(** [sv'] comes after [sv]: it is announced and has announced no less. *)
Record Grows (sv sv' : Server) : Prop := {
  gr_announced : Announced sv';
  gr_created : forall g, In g (createdGuids (wire sv)) ->
                         In g (createdGuids (wire sv'));
}.

End DispatcherNotions.

(** * Properties *)

(** ** String primitives *)
Module JSFacts.
Import JS.

Lemma substring_0_all s : substring 0 (String.length s) s = s.
Proof. induction s as [|a s IH]; simpl; [reflexivity | now rewrite IH]. Qed.

Lemma substring_take (n : nat) s :
  substring 0 n s = string_of_list_ascii (take n (list_ascii_of_string s)).
Proof.
  revert s; induction n as [|n IH]; intros [|a s]; simpl; try reflexivity.
  now rewrite IH.
Qed.

Lemma substring_drop (n : nat) s :
  substring n (String.length s - n) s
  = string_of_list_ascii (drop n (list_ascii_of_string s)).
Proof.
  revert s; induction n as [|n IH]; intros s.
  - rewrite Nat.sub_0_r, substring_0_all, drop_0.
    now rewrite string_of_list_ascii_of_string.
  - destruct s as [|a s]; simpl; [reflexivity | apply IH].
Qed.

Lemma indexOf_from_absent c s i :
  0 <= i -> (indexOf_from c s i = -1 <-> ~ In c (list_ascii_of_string s)).
Proof.
  revert i; induction s as [|a s IH]; intros i Hi; simpl.
  - tauto.
  - destruct (Ascii.eqb_spec a c) as [->|Hne].
    + split; [lia | tauto].
    + rewrite (IH (i + 1)) by lia. split; [intros H [E|E]; tauto | tauto].
Qed.

(** [indexOf] finds the least position holding [c]. *)
Lemma indexOf_from_first c s (k : nat) i :
  String.get k s = Some c ->
  (forall j : nat, (j < k)%nat -> String.get j s <> Some c) ->
  indexOf_from c s i = i + Z.of_nat k.
Proof.
  revert k i; induction s as [|a s IH]; intros k i Hk Hlt; simpl in *.
  - destruct k; discriminate.
  - destruct k as [|k].
    + injection Hk as ->. rewrite Ascii.eqb_refl. lia.
    + destruct (Ascii.eqb_spec a c) as [->|Hne].
      * exfalso. apply (Hlt 0%nat); [lia | reflexivity].
      * rewrite (IH k (i + 1) Hk); [lia|].
        intros j Hj. apply (Hlt (S j)). lia.
Qed.

Lemma get_lt_length (k : nat) s c :
  String.get k s = Some c -> (k < String.length s)%nat.
Proof.
  revert k; induction s as [|a s IH]; intros [|k] H; simpl in *;
    try discriminate; [lia|]. apply IH in H. lia.
Qed.

Lemma slice_prefix s (k : nat) :
  (k <= String.length s)%nat ->
  slice s 0 (Z.of_nat k)
  = string_of_list_ascii (take k (list_ascii_of_string s)).
Proof.
  intros Hk. unfold slice, relIndex, length.
  change (0 <? 0) with false. cbv iota.
  destruct (Z.ltb_spec (Z.of_nat k) 0); [lia|].
  rewrite <- substring_take. f_equal; lia.
Qed.

Lemma substringFrom_suffix s (k : nat) :
  (k <= String.length s)%nat ->
  substringFrom s (Z.of_nat k)
  = string_of_list_ascii (drop k (list_ascii_of_string s)).
Proof.
  intros Hk. unfold substringFrom, length.
  rewrite <- substring_drop. f_equal; lia.
Qed.

Lemma startsWith_iff p s :
  startsWith p s = true <-> exists t, s = p +:+ t.
Proof.
  revert s; induction p as [|a p IH]; intros s; simpl.
  - split; [intros _; now exists s | reflexivity].
  - destruct s as [|b s]; simpl.
    + split; [discriminate | intros [t Ht]; discriminate].
    + rewrite andb_true_iff, IH. split.
      * intros [Hab [t ->]]. apply Ascii.eqb_eq in Hab as ->. now exists t.
      * intros [t Ht]. injection Ht as -> ->. split; [apply Ascii.eqb_refl | now exists t].
Qed.

Lemma split_nonempty sep s : split sep s <> [].
Proof.
  destruct s as [|c s]; simpl; [discriminate|].
  destruct (Ascii.eqb c sep); [discriminate|].
  destruct (split sep s); discriminate.
Qed.

(** Joining the pieces of a split with the separator gives the string back. *)
Lemma join_split sep s : join (String sep EmptyString) (split sep s) = s.
Proof.
  induction s as [|c s IH]; [reflexivity|].
  simpl split. destruct (Ascii.eqb_spec c sep) as [->|Hne].
  - pose proof (split_nonempty sep s) as Hn.
    destruct (split sep s) as [|l ls]; [contradiction|].
    simpl. simpl in IH. now rewrite IH.
  - pose proof (split_nonempty sep s) as Hn.
    destruct (split sep s) as [|l ls]; [contradiction|].
    destruct ls as [|l' ls].
    + simpl in *. now rewrite IH.
    + change (String c (join (String sep EmptyString) (l :: l' :: ls)) = String c s).
      now rewrite IH.
Qed.

(** No piece of a split contains the separator. *)
Lemma split_no_sep sep s l :
  In l (split sep s) -> ~ In sep (list_ascii_of_string l).
Proof.
  revert l; induction s as [|c s IH]; intros l; simpl.
  - intros [<-|[]]. simpl. tauto.
  - destruct (Ascii.eqb_spec c sep) as [->|Hne].
    + intros [<-|H]; [simpl; tauto | now apply IH].
    + pose proof (split_nonempty sep s) as Hn.
      destruct (split sep s) as [|l0 ls]; [contradiction|].
      intros [<-|H].
      * simpl. intros [E|E]; [congruence|]. apply (IH l0); [now left | exact E].
      * apply IH. now right.
Qed.

Lemma first_cons c s : first (String c s) = String c EmptyString.
Proof. unfold first. now destruct s. Qed.

Lemma sliceFrom_1_cons c s : sliceFrom (String c s) 1 = s.
Proof.
  unfold sliceFrom, slice, relIndex, length. cbn [String.length].
  change (1 <? 0) with false. cbv iota.
  destruct (Z.ltb_spec (Z.of_nat (S (String.length s))) 0); [lia|].
  replace (Z.to_nat (Z.min 1 (Z.of_nat (S (String.length s))))) with 1%nat by lia.
  replace (Z.to_nat _) with (String.length s) by lia.
  cbn [substring]. apply substring_0_all.
Qed.

End JSFacts.

Module StackTraceFacts.
Import JS JSFacts StackTrace.

(** C9. [splitErrorMessage s]: without a colon in [s] the name is empty and
    the message is [s]; with the first colon at index [k], the name is the
    prefix [s[0..k)] and the message is [s] from index [k+2] on when
    [k+2 <= s.length], and the whole of [s] otherwise. *)
Theorem splitErrorMessage_spec (s : string) :
  (~ In ":"%char (list_ascii_of_string s) ->
     splitErrorMessage s = {| nm_name := ""; nm_message := s |})
  /\
  (forall k : nat,
     String.get k s = Some ":"%char ->
     (forall j : nat, (j < k)%nat -> String.get j s <> Some ":"%char) ->
     splitErrorMessage s =
       {| nm_name := string_of_list_ascii (take k (list_ascii_of_string s));
          nm_message :=
            if (k + 2 <=? String.length s)%nat
            then string_of_list_ascii (drop (k + 2) (list_ascii_of_string s))
            else s |}).
Proof.
  split.
  - intros Hno. unfold splitErrorMessage, indexOf.
    apply (indexOf_from_absent _ _ 0) in Hno; [|lia]. now rewrite Hno.
  - intros k Hk Hfirst. unfold splitErrorMessage, indexOf.
    rewrite (indexOf_from_first _ _ k 0 Hk Hfirst), Z.add_0_l.
    pose proof (get_lt_length _ _ _ Hk) as Hlen.
    destruct (Z.eqb_spec (Z.of_nat k) (-1)) as [?|_]; [lia|].
    simpl negb. cbv iota. rewrite andb_true_l. unfold length. f_equal.
    + apply slice_prefix. lia.
    + destruct (Nat.leb_spec (k + 2) (String.length s)) as [Hle|Hgt];
        destruct (Z.leb_spec (Z.of_nat k + 2) (Z.of_nat (String.length s)));
        try lia; [|reflexivity].
      replace (Z.of_nat k + 2) with (Z.of_nat (k + 2)) by lia.
      now apply substringFrom_suffix.
Qed.

Lemma splitErrorMessage_spec_witness :
  splitErrorMessage "Error: boom" = {| nm_name := "Error"; nm_message := "boom" |}.
Proof.
  refine (proj2 (splitErrorMessage_spec "Error: boom") 5%nat _ _).
  - reflexivity.
  - intros j Hj.
    destruct j as [|[|[|[|[|j]]]]]; simpl; try discriminate. lia.
Defined.

(** *** [rewriteErrorMessage] *)

Lemma isFrameLine_iff l : isFrameLine l = true <-> exists t, l = "    at " +:+ t.
Proof. apply startsWith_iff. Qed.

Lemma filter_nil_iff {A} (f : A -> bool) (l : list A) :
  List.filter f l = [] <-> forall x, In x l -> f x = false.
Proof.
  induction l as [|a l IH]; simpl; [tauto|].
  destruct (f a) eqn:Ha.
  - split; [discriminate|]. intros H. specialize (H a (or_introl eq_refl)). congruence.
  - rewrite IH. split.
    + intros H x [<-|Hx]; auto.
    + intros H x Hx. apply H. now right.
Qed.

Lemma rewriteError_name e m : name (rewriteError e m) = name e.
Proof. unfold rewriteError. now destruct (negb _). Qed.

Lemma rewriteError_message e m : message (rewriteError e m) = m.
Proof. unfold rewriteError. now destruct (negb _). Qed.

Lemma rewriteError_stack_frames e m l :
  In l (stackLines e) -> isFrameLine l = true ->
  stack (rewriteError e m)
  = Some ((name e +:+ ": " +:+ m) +:+ JS.NL
          +:+ JS.join JS.NL (List.filter isFrameLine (stackLines e))).
Proof.
  intros Hin Hl. unfold rewriteError. fold (stackLines e).
  destruct (List.filter isFrameLine (stackLines e)) as [|x xs] eqn:Hf.
  - exfalso. rewrite filter_nil_iff in Hf. rewrite (Hf l Hin) in Hl. discriminate.
  - reflexivity.
Qed.

Lemma rewriteError_stack_none e m :
  (forall l, In l (stackLines e) -> isFrameLine l = false) ->
  stack (rewriteError e m) = stack e.
Proof.
  intros H. apply filter_nil_iff in H. unfold rewriteError.
  fold (stackLines e). now rewrite H.
Qed.

(** C2. [rewriteErrorMessage e m] returns the reference it was given; the
    object behind it has message [m] and its old name; when the old stack
    has a line starting with ["    at "], the new stack is the line
    [name: m] followed by those lines in their order, and otherwise the
    stack is the old one. No other object changes. *)
Theorem rewriteErrorMessage_spec (h : gmap loc JsError) (e : loc)
    (o : JsError) (m : string) :
  h !! e = Some o ->
  fst (rewriteErrorMessage h e m) !! e = Some (rewriteError o m) /\
  snd (rewriteErrorMessage h e m) = e /\
  (forall e2, e2 <> e -> fst (rewriteErrorMessage h e m) !! e2 = h !! e2) /\
  message (rewriteError o m) = m /\
  name (rewriteError o m) = name o /\
  ((exists l, In l (stackLines o) /\ isFrameLine l = true) ->
     stack (rewriteError o m)
     = Some ((name o +:+ ": " +:+ m) +:+ JS.NL
             +:+ JS.join JS.NL (List.filter isFrameLine (stackLines o)))) /\
  ((forall l, In l (stackLines o) -> isFrameLine l = false) ->
     stack (rewriteError o m) = stack o).
Proof.
  intros Hlook. unfold rewriteErrorMessage. cbn [fst snd].
  repeat split.
  - rewrite lookup_alter_eq, Hlook. reflexivity.
  - intros e2 Hne. now rewrite lookup_alter_ne.
  - apply rewriteError_message.
  - apply rewriteError_name.
  - intros [l [Hin Hl]]. now apply (rewriteError_stack_frames o m l).
  - apply rewriteError_stack_none.
Qed.

Lemma rewriteErrorMessage_spec_witness :
  let o := {| name := "TimeoutError"; message := "old";
              stack := Some "TimeoutError: old
    at remote (/srv/a.js:1:1)
junk
    at handler (/home/u/a.spec.js:8:3)" |} in
  let h : gmap loc JsError := {[ 1%positive := o ]} in
  fst (rewriteErrorMessage h 1%positive "new") !! 1%positive
  = Some {| name := "TimeoutError"; message := "new";
            stack := Some "TimeoutError: new
    at remote (/srv/a.js:1:1)
    at handler (/home/u/a.spec.js:8:3)" |}.
Proof.
  intros o h.
  exact (proj1 (rewriteErrorMessage_spec h 1%positive o "new" eq_refl)).
Defined.

(** *** [captureStackTrace] *)

Lemma isTransition_cons p pfs i :
  isTransition (p :: pfs) (S i) <-> isTransition pfs i.
Proof. unfold isTransition. reflexivity. Qed.

Lemma isTransition_head p q tl :
  isTransition (p :: q :: tl) 0 <-> inClient p = true /\ inClient q = false.
Proof.
  unfold isTransition. simpl. split.
  - intros (p' & q' & [= <-] & [= <-] & H). exact H.
  - intros H. now exists p, q.
Qed.

Lemma isTransition_short pfs i :
  (List.length pfs <= S i)%nat -> ~ isTransition pfs i.
Proof.
  intros Hlen (p & q & _ & Hq & _).
  apply lookup_lt_Some in Hq. lia.
Qed.

(** The loop stops at the deepest transition, if there is one. *)
Lemma apiEntry_Some k rest i :
  apiEntry k rest = Some i ->
  exists j, i = (k + j)%nat /\ deepestTransition rest j.
Proof.
  revert k; induction rest as [|p tl IH]; intros k; [discriminate|].
  destruct tl as [|q tl]; [discriminate|].
  cbn [apiEntry].
  destruct (inClient p && negb (inClient q)) eqn:Hc.
  - intros [= <-]. exists 0%nat. split; [lia|]. split; [|intros j Hj; lia].
    apply isTransition_head. apply andb_true_iff in Hc as [-> Hq].
    now apply negb_true_iff in Hq.
  - intros H. apply IH in H as (j & -> & Hj & Hmin).
    exists (S j). split; [lia|]. split; [now apply isTransition_cons|].
    intros [|j'] Hlt.
    + rewrite isTransition_head. intros [Hp Hq]. rewrite Hp, Hq in Hc. discriminate.
    + rewrite isTransition_cons. apply Hmin. lia.
Qed.

Lemma apiEntry_None k rest :
  apiEntry k rest = None -> forall j, ~ isTransition rest j.
Proof.
  revert k; induction rest as [|p tl IH]; intros k H j.
  - apply isTransition_short. simpl. lia.
  - destruct tl as [|q tl]; [apply isTransition_short; simpl; lia|].
    cbn [apiEntry] in H.
    destruct (inClient p && negb (inClient q)) eqn:Hc; [discriminate|].
    destruct j as [|j].
    + rewrite isTransition_head. intros [Hp Hq]. rewrite Hp, Hq in Hc. discriminate.
    + rewrite isTransition_cons. now apply (IH (S k)).
Qed.

Lemma deepestTransition_unique pfs i j :
  deepestTransition pfs i -> deepestTransition pfs j -> i = j.
Proof.
  intros [Hi Hmi] [Hj Hmj].
  destruct (Nat.lt_trichotomy i j) as [H|[H|H]]; [|exact H|].
  - now apply Hmj in H.
  - now apply Hmi in H.
Qed.

Section CaptureFacts.

Variable parseLine : string -> option StackLineData.
Variable path_sep : string.
Variable path_resolve : string -> string -> string.
Variables CLIENT_LIB CLIENT_SRC TEST_LIB TEST_SRC : string.
Variable isUnderTest : bool.
Variable toLowerCase : string -> string.
Variable newErrorStack : Z -> string.

Local Abbreviation capture :=
  (captureStackTrace parseLine path_sep path_resolve
     CLIENT_LIB CLIENT_SRC TEST_LIB TEST_SRC isUnderTest toLowerCase newErrorStack).

(** The frames parsed from the snapshot taken by a call in state [g]. *)
Local Abbreviation parsed g :=
  (parseFrames parseLine path_sep path_resolve
     CLIENT_LIB CLIENT_SRC TEST_LIB TEST_SRC (process_cwd g) isUnderTest
     (newErrorStack 30)).

Lemma apiNameOf_lowerFirst fr :
  apiNameOf toLowerCase fr
  = match function fr with
    | Some f => lowerFirst toLowerCase f
    | None => ""
    end.
Proof.
  unfold apiNameOf. destruct (function fr) as [[|c f]|]; try reflexivity.
  cbn [JS.truthy lowerFirst]. now rewrite first_cons, sliceFrom_1_cons.
Qed.

Lemma captureStackTrace_result g :
  fst (capture g)
  = parseStack parseLine path_sep path_resolve
      CLIENT_LIB CLIENT_SRC TEST_LIB TEST_SRC isUnderTest toLowerCase
      (process_cwd g) (newErrorStack 30).
Proof. reflexivity. Qed.

Lemma selectFrames_transition pfs i p :
  deepestTransition pfs i -> pfs !! i = Some p ->
  selectFrames toLowerCase pfs = (apiNameOf toLowerCase (frame p), drop (S i) pfs).
Proof.
  intros Hd Hp. unfold selectFrames.
  destruct (apiEntry 0 pfs) as [i'|] eqn:He.
  - apply apiEntry_Some in He as (j & -> & Hj).
    rewrite (deepestTransition_unique _ _ _ Hj Hd). cbn [Nat.add].
    now rewrite Hp.
  - exfalso. exact (apiEntry_None _ _ He i (proj1 Hd)).
Qed.

Lemma selectFrames_no_transition pfs :
  (forall i, ~ isTransition pfs i) -> selectFrames toLowerCase pfs = ("", pfs).
Proof.
  intros Hno. unfold selectFrames.
  destruct (apiEntry 0 pfs) as [i'|] eqn:He; [|reflexivity].
  apply apiEntry_Some in He as (j & _ & Hj & _). now apply Hno in Hj.
Qed.

(** C1. With a transition in the captured stack, [apiName] is the function
    name of the deepest transition frame with its first code unit
    lower-cased, and [''] when that frame has no function name; without a
    transition [apiName] is ['']. *)
Theorem captureStackTrace_apiName (g : Globals) :
  (forall i p,
     deepestTransition (parsed g) i -> parsed g !! i = Some p ->
     apiName (fst (capture g))
     = match function (frame p) with
       | Some f => lowerFirst toLowerCase f
       | None => ""
       end)
  /\
  ((forall i, ~ isTransition (parsed g) i) -> apiName (fst (capture g)) = "").
Proof.
  rewrite captureStackTrace_result. unfold parseStack. split.
  - intros i p Hd Hp. rewrite (selectFrames_transition _ i p Hd Hp).
    cbn [apiName]. apply apiNameOf_lowerFirst.
  - intros Hno. now rewrite (selectFrames_no_transition _ Hno).
Qed.

(** C3, as the code has it. With a transition in the captured stack,
    [frames] is what follows the deepest transition frame in [allFrames], in
    order: the boundary frame and the frames before it are dropped, and
    frames after it are kept whether in-client or not. Without a transition
    [frames] is [allFrames]. *)
Theorem captureStackTrace_frames (g : Globals) :
  allFrames (fst (capture g)) = map frame (parsed g) /\
  (forall i,
     deepestTransition (parsed g) i ->
     frames (fst (capture g)) = drop (S i) (allFrames (fst (capture g)))) /\
  ((forall i, ~ isTransition (parsed g) i) ->
     frames (fst (capture g)) = allFrames (fst (capture g))).
Proof.
  rewrite captureStackTrace_result. unfold parseStack. split; [|split].
  - now destruct (selectFrames _ _).
  - intros i Hd.
    destruct (proj1 Hd) as (p & _ & Hp & _).
    rewrite (selectFrames_transition _ i p Hd Hp). cbn [frames allFrames].
    symmetry. apply skipn_map.
  - intros Hno. now rewrite (selectFrames_no_transition _ Hno).
Qed.


End CaptureFacts.

(** *** The sample stack: [Page.click] called by [handler], itself called
    from [Page.emit] *)

Lemma sample_deepest : deepestTransition Sample.parsed 0.
Proof.
  split; [|intros j Hj; lia].
  exists {| frame := Sample.frame_click; frameText := Sample.line_click;
            inClient := true |},
         {| frame := Sample.frame_handler; frameText := Sample.line_handler;
            inClient := false |}.
  repeat split; reflexivity.
Qed.

Lemma captureStackTrace_apiName_witness :
  apiName (fst (Sample.capture Sample.callStack Sample.globals)) = "page.click".
Proof.
  refine (proj1 (captureStackTrace_apiName Sample.parseLine Sample.path_sep
                   Sample.path_resolve Sample.CLIENT_LIB Sample.CLIENT_SRC
                   Sample.TEST_LIB Sample.TEST_SRC false Sample.toLowerCase
                   (Sample.stackOf Sample.callStack) Sample.globals)
            0%nat
            {| frame := Sample.frame_click; frameText := Sample.line_click;
               inClient := true |} _ _).
  - split; [|intros j Hj; lia].
    exists {| frame := Sample.frame_click; frameText := Sample.line_click;
              inClient := true |},
           {| frame := Sample.frame_handler; frameText := Sample.line_handler;
              inClient := false |}.
    repeat split; reflexivity.
  - reflexivity.
Defined.

Lemma captureStackTrace_frames_witness :
  frames (fst (Sample.capture Sample.callStack Sample.globals))
  = [Sample.frame_handler; Sample.frame_emit].
Proof.
  refine (proj1 (proj2 (captureStackTrace_frames Sample.parseLine Sample.path_sep
                   Sample.path_resolve Sample.CLIENT_LIB Sample.CLIENT_SRC
                   Sample.TEST_LIB Sample.TEST_SRC false Sample.toLowerCase
                   (Sample.stackOf Sample.callStack) Sample.globals))
            0%nat _).
  split; [|intros j Hj; lia].
  exists {| frame := Sample.frame_click; frameText := Sample.line_click;
            inClient := true |},
         {| frame := Sample.frame_handler; frameText := Sample.line_handler;
            inClient := false |}.
  repeat split; reflexivity.
Defined.

(** On the sample stack the boundary frame [Page.click] is not among
    [frames], and the in-client frame [Page.emit] is. *)
Lemma captureStackTrace_frames_counterexample :
  ~ keepsBoundary Sample.parsed
      (fst (Sample.capture Sample.callStack Sample.globals)) /\
  ~ dropsInternal Sample.parsed
      (fst (Sample.capture Sample.callStack Sample.globals)).
Proof.
  split.
  - intros H.
    specialize (H 0%nat
                  {| frame := Sample.frame_click; frameText := Sample.line_click;
                     inClient := true |} sample_deepest eq_refl).
    vm_compute in H. destruct H as [H|[H|[]]]; discriminate.
  - intros H.
    apply (H 0%nat sample_deepest 2%nat
             {| frame := Sample.frame_emit; frameText := Sample.line_emit;
                inClient := true |}); [lia | reflexivity | reflexivity |].
    vm_compute. right. now left.
Qed.

End StackTraceFacts.


Module DispatcherFacts.
Import Dispatchers.

Ltac unfold_request_from :=
  cbn [RequestDispatcher_from Request_id Request_frame Request_url
       Request_resourceType Request_method Request_postDataBuffer
       Request_headers Request_isNavigationRequest Request_redirectedFrom
       requestObjects wfRequest].

Ltac notin Hnot :=
  let H := fresh in
  intros H; apply Hnot; cbn; try rewrite H; auto.


(** *** [FetchRequestDispatcher.fetchResponseBody] *)

(** C10. For a [fetchUid] without an entry in [fetchResponses] the call
    resolves with [{ binary: undefined }]. *)
Theorem fetchResponseBody_missing (sv : Server) (this_object : objId)
    (fetchUid : string) :
  default ∅ (fetchResponses sv !! this_object) !! fetchUid = None ->
  FetchRequestDispatcher_fetchResponseBody sv this_object fetchUid
  = Resolved {| binary := None |}.
Proof.
  intros H. unfold FetchRequestDispatcher_fetchResponseBody. now rewrite H.
Qed.

Lemma fetchResponseBody_missing_witness :
  FetchRequestDispatcher_fetchResponseBody
    (setFetchResponses emptyServer
       {[ 7%positive := {[ "uid-1" := [Byte.x68; Byte.x69] ]} ]})
    7%positive "uid-2"
  = Resolved {| binary := None |}.
Proof.
  apply fetchResponseBody_missing. reflexivity.
Defined.

(** A body that is there is returned in base64. *)
Lemma fetchResponseBody_present sv this_object fetchUid (b : Buffer) :
  default ∅ (fetchResponses sv !! this_object) !! fetchUid = Some b ->
  FetchRequestDispatcher_fetchResponseBody sv this_object fetchUid
  = Resolved {| binary := Some (base64 b) |}.
Proof.
  intros H. unfold FetchRequestDispatcher_fetchResponseBody. now rewrite H.
Qed.

(** A lookup that comes after the response was disposed resolves the same
    way. *)
Lemma fetchResponseBody_after_dispose sv this_object fetchUid :
  FetchRequestDispatcher_fetchResponseBody
    (fst (FetchRequestDispatcher_disposeFetchResponse sv this_object fetchUid))
    this_object fetchUid
  = Resolved {| binary := None |}.
Proof.
  unfold FetchRequestDispatcher_fetchResponseBody.
  cbn [FetchRequestDispatcher_disposeFetchResponse fst setFetchResponses
       fetchResponses].
  rewrite lookup_alter_eq.
  destruct (fetchResponses sv !! this_object) as [m|]; cbn.
  - now rewrite lookup_delete_eq.
  - now rewrite lookup_empty.
Qed.

Example base64_hi : base64 [Byte.x68; Byte.x69] = "aGk=".
Proof. reflexivity. Qed.

(** *** [WebSocketDispatcher] *)

Lemma listenersOf_on sv o ev h :
  listenersOf (on sv o ev h) o
  = (listenersOf sv o
     ++ [{| l_event := ev; l_once := false; l_handler := h |}])%list.
Proof.
  unfold listenersOf at 1, on. cbn [listeners setListeners].
  now rewrite lookup_insert_eq.
Qed.

Lemma WebSocketDispatcher_new_guid sv scope ws :
  snd (WebSocketDispatcher_new sv scope ws) = nextGuid sv.
Proof. reflexivity. Qed.

(** On a web socket nobody listens to yet, the constructor leaves exactly
    its four listeners. *)
Lemma WebSocketDispatcher_new_listeners sv scope ws :
  listeners sv !! WebSocket_id ws = None ->
  listenersOf (fst (WebSocketDispatcher_new sv scope ws)) (WebSocket_id ws)
  = [ {| l_event := WebSocket_FrameSent; l_once := false;
         l_handler := OnFrameSent (nextGuid sv) |};
      {| l_event := WebSocket_FrameReceived; l_once := false;
         l_handler := OnFrameReceived (nextGuid sv) |};
      {| l_event := WebSocket_SocketError; l_once := false;
         l_handler := OnSocketError (nextGuid sv) |};
      {| l_event := WebSocket_Close; l_once := false;
         l_handler := OnClose (nextGuid sv) |} ].
Proof.
  intros Hfresh. unfold WebSocketDispatcher_new.
  cbn [Dispatcher_new fst]. rewrite !listenersOf_on.
  unfold listenersOf. cbn [listeners]. now rewrite Hfresh.
Qed.

(** C7. Once the dispatcher of a web socket is constructed, every
    [FrameSent], [FrameReceived], [SocketError] or [Close] the socket emits
    appends exactly one message to the wire, the corresponding protocol
    event with the payload as it came, and the socket's listeners stay as
    they were. *)
Theorem WebSocketDispatcher_forwards (sv : Server) (scope : guid)
    (ws : WebSocket) (sv2 : Server) (ev : EventName) (arg : JsVal)
    (msg : WireMessage) :
  listeners sv !! WebSocket_id ws = None ->
  listenersOf sv2 (WebSocket_id ws)
  = listenersOf (fst (WebSocketDispatcher_new sv scope ws)) (WebSocket_id ws) ->
  protocolEvent (snd (WebSocketDispatcher_new sv scope ws)) ev arg = Some msg ->
  wire (emit sv2 (WebSocket_id ws) ev arg) = (wire sv2 ++ [msg])%list /\
  listenersOf (emit sv2 (WebSocket_id ws) ev arg) (WebSocket_id ws)
  = listenersOf sv2 (WebSocket_id ws).
Proof.
  intros Hfresh Hsame Hmsg.
  rewrite WebSocketDispatcher_new_listeners in Hsame by exact Hfresh.
  rewrite WebSocketDispatcher_new_guid in Hmsg.
  unfold emit. rewrite Hsame.
  destruct ev; cbn in Hmsg; try discriminate; injection Hmsg as <-;
    cbn [List.filter l_event l_once l_handler EventName_eqb andb negb fold_left
         runHandler Dispatcher_dispatchEvent setWire setListeners wire listeners];
    (split; [reflexivity|]);
    unfold listenersOf, Dispatcher_dispatchEvent, setWire, setListeners;
    cbn [listeners]; now rewrite lookup_insert_eq.
Qed.

Lemma WebSocketDispatcher_forwards_witness :
  let ws := {| WebSocket_id := 5%positive; WebSocket_url := "ws://h/" |} in
  let sv1 := fst (WebSocketDispatcher_new emptyServer 9%positive ws) in
  let frame_ := VObject [("opcode", VNumber 1); ("data", VString "hi")] in
  wire (emit sv1 5%positive WebSocket_FrameSent frame_)
  = [Create 1%positive "WebSocket" (WebSocketInitializer "ws://h/");
     Event 1%positive "frameSent" frame_].
Proof.
  intros ws sv1 frame_.
  exact (proj1 (WebSocketDispatcher_forwards emptyServer 9%positive ws sv1
                  WebSocket_FrameSent frame_ (Event 1%positive "frameSent" frame_)
                  eq_refl eq_refl eq_refl)).
Defined.

(** *** The [from] factories *)

Lemma Dispatcher_new_registers sv scope o type_ init isScope :
  existingDispatcher (fst (Dispatcher_new sv scope o type_ init isScope)) o
  = Some (snd (Dispatcher_new sv scope o type_ init isScope)).
Proof.
  unfold existingDispatcher, Dispatcher_new. cbn [fst snd dispatcherSymbol].
  apply lookup_insert_eq.
Qed.

Lemma RequestDispatcher_from_existing sv scope r g :
  existingDispatcher sv (Request_id r) = Some g ->
  RequestDispatcher_from sv scope r = (sv, g).
Proof. intros H. destruct r. cbn in *. now rewrite H. Qed.

Lemma RequestDispatcher_from_registers sv scope r :
  existingDispatcher (fst (RequestDispatcher_from sv scope r)) (Request_id r)
  = Some (snd (RequestDispatcher_from sv scope r)).
Proof.
  destruct r as [id fr url rt me pd hd nav rf].
  cbn [RequestDispatcher_from Request_id Request_frame Request_url
       Request_resourceType Request_method Request_postDataBuffer
       Request_headers Request_isNavigationRequest Request_redirectedFrom].
  destruct (existingDispatcher sv id) eqn:He; [exact He|].
  destruct (FrameDispatcher_from sv scope fr) as [sv1 frame].
  destruct rf as [r'|].
  - destruct (RequestDispatcher_from sv1 scope r') as [sv2 d].
    apply Dispatcher_new_registers.
  - apply Dispatcher_new_registers.
Qed.

Lemma ResponseDispatcher_from_registers sv scope r :
  existingDispatcher (fst (ResponseDispatcher_from sv scope r)) (Response_id r)
  = Some (snd (ResponseDispatcher_from sv scope r)).
Proof.
  unfold ResponseDispatcher_from.
  destruct (existingDispatcher sv (Response_id r)) eqn:He; [exact He|].
  destruct (RequestDispatcher_from sv scope (Response_request r)) as [sv1 q].
  apply Dispatcher_new_registers.
Qed.

Lemma RouteDispatcher_from_registers sv scope r :
  existingDispatcher (fst (RouteDispatcher_from sv scope r)) (Route_id r)
  = Some (snd (RouteDispatcher_from sv scope r)).
Proof.
  unfold RouteDispatcher_from.
  destruct (existingDispatcher sv (Route_id r)) eqn:He; [exact He|].
  destruct (RequestDispatcher_from sv scope (Route_request r)) as [sv1 q].
  apply Dispatcher_new_registers.
Qed.

Lemma FetchRequestDispatcher_from_registers sv scope r :
  existingDispatcher (fst (FetchRequestDispatcher_from sv scope r))
    (FetchRequest_id r)
  = Some (snd (FetchRequestDispatcher_from sv scope r)).
Proof.
  unfold FetchRequestDispatcher_from.
  destruct (existingDispatcher sv (FetchRequest_id r)) eqn:He; [exact He|].
  unfold existingDispatcher. cbn. apply lookup_insert_eq.
Qed.

(** *** The lifecycle of a dispatcher *)

Lemma Ext_refl sv : Inv sv -> Ext sv sv.
Proof. intros H. now split. Qed.

Lemma Ext_trans a b c : Ext a b -> Ext b c -> Ext a c.
Proof.
  intros [_ Hh1 Hd1] [Hi Hh2 Hd2]. split; [exact Hi | |]; intros g Hg.
  - apply Hh2, Hh1, Hg.
  - apply Hd2, Hd1, Hg.
Qed.

Lemma Inv_empty : Inv emptyServer.
Proof.
  split; cbn.
  - intros g [d Hd]. now rewrite lookup_empty in Hd.
  - intros g Hg. now apply not_elem_of_empty in Hg.
  - intros g. unfold isDisposed. cbn. now rewrite lookup_empty.
  - intros o ls l Hl. now rewrite lookup_empty in Hl.
Qed.

Lemma isDisposed_is_Some sv g : isDisposed sv g = true -> is_Some (heap sv !! g).
Proof. unfold isDisposed. destruct (heap sv !! g); [eauto | discriminate]. Qed.

Lemma disposeCount_app g w m :
  disposeCount g (w ++ [m]) = (disposeCount g w + if isDisposeOf g m then 1 else 0)%nat.
Proof.
  unfold disposeCount. rewrite List.filter_app, length_app. cbn.
  now destruct (isDisposeOf g m).
Qed.

(** The base constructor *)

Lemma heap_new sv scope o type_ init isScope g :
  is_Some (heap (fst (Dispatcher_new sv scope o type_ init isScope)) !! g)
  <-> g = nextGuid sv \/ is_Some (heap sv !! g).
Proof.
  cbn. destruct (decide (g = nextGuid sv)) as [->|Hne].
  - rewrite lookup_insert_eq. split; eauto.
  - rewrite lookup_insert_ne by congruence.
    destruct (decide (g = scope)) as [->|Hs].
    + rewrite lookup_alter_eq. split.
      * intros [d Hd]. right. destruct (heap sv !! scope); [eauto | discriminate].
      * intros [?|[d ->]]; [contradiction | cbn; eauto].
    + rewrite lookup_alter_ne by congruence. tauto.
Qed.

Lemma isDisposed_new sv scope o type_ init isScope g :
  isDisposed (fst (Dispatcher_new sv scope o type_ init isScope)) g
  = if decide (g = nextGuid sv) then false else isDisposed sv g.
Proof.
  unfold isDisposed. cbn. destruct (decide (g = nextGuid sv)) as [->|Hne].
  - now rewrite lookup_insert_eq.
  - rewrite lookup_insert_ne by congruence.
    destruct (decide (g = scope)) as [->|Hs].
    + rewrite lookup_alter_eq. now destruct (heap sv !! scope).
    + now rewrite lookup_alter_ne by congruence.
Qed.

Lemma Dispatcher_new_ext sv scope o type_ init isScope :
  Inv sv -> Ext sv (fst (Dispatcher_new sv scope o type_ init isScope)).
Proof.
  intros [Hf Ht Hc Hl].
  assert (Hnew : isDisposed sv (nextGuid sv) = false).
  { destruct (isDisposed sv (nextGuid sv)) eqn:E; [|reflexivity].
    apply isDisposed_is_Some, Hf in E. lia. }
  split; [split| |].
  - intros g Hg. apply heap_new in Hg as [->|Hg]; cbn; [lia|].
    apply Hf in Hg. lia.
  - intros g Hg. rewrite heap_new, isDisposed_new.
    change (g ∈ {[nextGuid sv]} ∪ table sv) in Hg.
    apply elem_of_union in Hg as [Hg|Hg].
    + apply elem_of_singleton in Hg as ->. split; [now left|].
      now destruct (decide _).
    + destruct (Ht g Hg) as [Hs Hd]. split; [now right|].
      now destruct (decide _).
  - intros g. rewrite isDisposed_new.
    change (wire (fst (Dispatcher_new sv scope o type_ init isScope)))
      with (wire sv ++ [Create (nextGuid sv) type_ init])%list.
    rewrite disposeCount_app. cbn [isDisposeOf]. rewrite Nat.add_0_r, Hc.
    destruct (decide (g = nextGuid sv)) as [->|]; [now rewrite Hnew | reflexivity].
  - intros o' ls l Hls Hin. apply heap_new. right. exact (Hl o' ls l Hls Hin).
  - intros g Hg. apply heap_new. now right.
  - intros g Hg. rewrite isDisposed_new.
    destruct (decide (g = nextGuid sv)) as [->|]; [congruence | exact Hg].
Qed.

Lemma Dispatcher_new_this sv scope o type_ init isScope :
  is_Some (heap (fst (Dispatcher_new sv scope o type_ init isScope))
           !! snd (Dispatcher_new sv scope o type_ init isScope)).
Proof. apply heap_new. now left. Qed.

(** The base [_dispose] *)

Lemma heap_dispose sv this g :
  is_Some (heap (Dispatcher_dispose sv this) !! g) <-> is_Some (heap sv !! g).
Proof.
  cbn. rewrite !lookup_alter_is_Some. reflexivity.
Qed.

Lemma isDisposed_dispose sv this g :
  is_Some (heap sv !! this) ->
  isDisposed (Dispatcher_dispose sv this) g
  = if decide (g = this) then true else isDisposed sv g.
Proof.
  intros [d Hd]. unfold isDisposed. cbn. rewrite Hd.
  destruct (decide (g = this)) as [->|Hne].
  - rewrite lookup_alter_eq.
    destruct (decide (this = d_parentScope d)) as [<-|Hp].
    + now rewrite lookup_alter_eq, Hd.
    + now rewrite lookup_alter_ne, Hd by congruence.
  - rewrite lookup_alter_ne by congruence.
    destruct (decide (g = d_parentScope d)) as [->|Hp].
    + rewrite lookup_alter_eq. now destruct (heap sv !! d_parentScope d).
    + now rewrite lookup_alter_ne by congruence.
Qed.

Lemma Dispatcher_dispose_ext sv this :
  Inv sv -> is_Some (heap sv !! this) -> isDisposed sv this = false ->
  Ext sv (Dispatcher_dispose sv this).
Proof.
  intros [Hf Ht Hc Hl] Hthis Hnot. split; [split| |].
  - intros g Hg. apply heap_dispose in Hg. exact (Hf g Hg).
  - intros g Hg. rewrite heap_dispose, isDisposed_dispose by exact Hthis.
    change (g ∈ table sv ∖ {[this]}) in Hg.
    apply elem_of_difference in Hg as [Hg Hne].
    rewrite elem_of_singleton in Hne.
    destruct (decide (g = this)); [contradiction|]. exact (Ht g Hg).
  - intros g. rewrite isDisposed_dispose by exact Hthis.
    change (wire (Dispatcher_dispose sv this))
      with (wire sv ++ [Dispose this])%list.
    rewrite disposeCount_app, Hc. cbn [isDisposeOf].
    destruct (decide (g = this)) as [->|Hne].
    + now rewrite Hnot, Pos.eqb_refl.
    + destruct (Pos.eqb_spec g this); [contradiction|]. now rewrite Nat.add_0_r.
  - intros o ls l Hls Hin. apply heap_dispose. exact (Hl o ls l Hls Hin).
  - intros g Hg. now apply heap_dispose.
  - intros g Hg. rewrite isDisposed_dispose by exact Hthis.
    now destruct (decide (g = this)).
Qed.

(** Events and listeners *)

Lemma Dispatcher_dispatchEvent_ext sv this method params :
  Inv sv -> Ext sv (Dispatcher_dispatchEvent sv this method params).
Proof.
  intros [Hf Ht Hc Hl]. split; [split| |]; try assumption; try (intros; assumption).
  intros g. change (wire (Dispatcher_dispatchEvent sv this method params))
    with (wire sv ++ [Event this method params])%list.
  rewrite disposeCount_app. cbn [isDisposeOf]. rewrite Nat.add_0_r. apply Hc.
Qed.

Lemma setListeners_ext sv ls' :
  Inv sv ->
  (forall o ls l, ls' !! o = Some ls -> In l ls ->
                  is_Some (heap sv !! handlerThis (l_handler l))) ->
  Ext sv (setListeners sv ls').
Proof.
  intros [Hf Ht Hc Hl] Hnew.
  split; [split| |]; try assumption; try (intros; assumption).
Qed.

Lemma listenersOf_In sv o l :
  Inv sv -> In l (listenersOf sv o) ->
  is_Some (heap sv !! handlerThis (l_handler l)).
Proof.
  intros Hi. unfold listenersOf.
  destruct (listeners sv !! o) as [ls|] eqn:E; cbn; [|tauto].
  exact (inv_listeners sv Hi o ls l E).
Qed.

Lemma addListener_ext sv o l :
  Inv sv -> is_Some (heap sv !! handlerThis (l_handler l)) ->
  Ext sv (setListeners sv (<[o := (listenersOf sv o ++ [l])%list]> (listeners sv))).
Proof.
  intros Hi Hthis. apply setListeners_ext; [exact Hi|].
  intros o' ls l' Hls Hin.
  destruct (decide (o' = o)) as [->|Hne].
  - rewrite lookup_insert_eq in Hls. injection Hls as <-.
    apply in_app_or in Hin as [Hin|[<-|[]]]; [|exact Hthis].
    exact (listenersOf_In sv o l' Hi Hin).
  - rewrite lookup_insert_ne in Hls by congruence.
    exact (inv_listeners sv Hi o' ls l' Hls Hin).
Qed.

Lemma on_ext sv o ev h :
  Inv sv -> is_Some (heap sv !! handlerThis h) -> Ext sv (on sv o ev h).
Proof. intros Hi Hh. now apply addListener_ext. Qed.

Lemma once_ext sv o ev h :
  Inv sv -> is_Some (heap sv !! handlerThis h) -> Ext sv (once sv o ev h).
Proof. intros Hi Hh. now apply addListener_ext. Qed.

Lemma runHandler_ext h arg sv :
  Inv sv -> is_Some (heap sv !! handlerThis h) -> Ext sv (runHandler h arg sv).
Proof.
  intros Hi Hh. destruct h as [t|t|t|t|t]; cbn [runHandler];
    try now apply Dispatcher_dispatchEvent_ext.
  destruct (isDisposed sv t) eqn:Hd; cbn [negb].
  - now apply Ext_refl.
  - now apply Dispatcher_dispose_ext.
Qed.

Lemma fold_runHandler_ext arg (fired : list Listener) sv :
  Inv sv ->
  (forall l, In l fired -> is_Some (heap sv !! handlerThis (l_handler l))) ->
  Ext sv (fold_left (fun s l => runHandler (l_handler l) arg s) fired sv).
Proof.
  revert sv; induction fired as [|l fired IH]; intros sv Hi Hall; cbn [fold_left].
  - now apply Ext_refl.
  - assert (H1 : Ext sv (runHandler (l_handler l) arg sv)).
    { apply runHandler_ext; [exact Hi|]. apply Hall. now left. }
    apply (Ext_trans _ _ _ H1). apply IH; [exact (ext_inv _ _ H1)|].
    intros l' Hin. apply (ext_heap _ _ H1), Hall. now right.
Qed.

Lemma emit_ext sv o ev arg : Inv sv -> Ext sv (emit sv o ev arg).
Proof.
  intros Hi. unfold emit.
  set (fired := List.filter _ (listenersOf sv o)).
  set (kept := List.filter _ (listenersOf sv o)).
  assert (H1 : Ext sv (setListeners sv (<[o := kept]> (listeners sv)))).
  { apply setListeners_ext; [exact Hi|]. intros o' ls l Hls Hin.
    destruct (decide (o' = o)) as [->|Hne].
    - rewrite lookup_insert_eq in Hls. injection Hls as <-.
      apply List.filter_In in Hin as [Hin _]. exact (listenersOf_In sv o l Hi Hin).
    - rewrite lookup_insert_ne in Hls by congruence.
      exact (inv_listeners sv Hi o' ls l Hls Hin). }
  apply (Ext_trans _ _ _ H1). apply fold_runHandler_ext; [exact (ext_inv _ _ H1)|].
  intros l Hin. apply List.filter_In in Hin as [Hin _].
  exact (listenersOf_In sv o l Hi Hin).
Qed.

(** The constructors *)

Lemma Request_ind' (P : Request -> Prop) :
  (forall id fr url rt me pd hd nav,
     P (MkRequest id fr url rt me pd hd nav None)) ->
  (forall id fr url rt me pd hd nav r',
     P r' -> P (MkRequest id fr url rt me pd hd nav (Some r'))) ->
  forall r, P r.
Proof.
  intros H0 H1. fix IH 1.
  intros [id fr url rt me pd hd nav [r'|]]; [apply H1, IH | apply H0].
Qed.

Lemma FrameDispatcher_from_ext sv scope frame :
  Inv sv -> Ext sv (fst (FrameDispatcher_from sv scope frame)).
Proof.
  intros Hi. unfold FrameDispatcher_from.
  destruct (existingDispatcher sv frame); [now apply Ext_refl|].
  now apply Dispatcher_new_ext.
Qed.

Lemma RequestDispatcher_from_ext r :
  forall sv scope, Inv sv -> Ext sv (fst (RequestDispatcher_from sv scope r)).
Proof.
  induction r as [id fr url rt me pd hd nav|id fr url rt me pd hd nav r' IH]
    using Request_ind'; intros sv scope Hi;
    cbn [RequestDispatcher_from Request_id Request_frame Request_url
         Request_resourceType Request_method Request_postDataBuffer
         Request_headers Request_isNavigationRequest Request_redirectedFrom];
    (destruct (existingDispatcher sv id); [now apply Ext_refl|]);
    pose proof (FrameDispatcher_from_ext sv scope fr Hi) as H1;
    destruct (FrameDispatcher_from sv scope fr) as [sv1 frame]; cbn [fst] in H1.
  - apply (Ext_trans _ _ _ H1). apply Dispatcher_new_ext, (ext_inv _ _ H1).
  - pose proof (IH sv1 scope (ext_inv _ _ H1)) as H2.
    destruct (RequestDispatcher_from sv1 scope r') as [sv2 d]; cbn [fst] in H2.
    apply (Ext_trans _ _ _ H1), (Ext_trans _ _ _ H2).
    apply Dispatcher_new_ext, (ext_inv _ _ H2).
Qed.

Lemma ResponseDispatcher_from_ext sv scope r :
  Inv sv -> Ext sv (fst (ResponseDispatcher_from sv scope r)).
Proof.
  intros Hi. unfold ResponseDispatcher_from.
  destruct (existingDispatcher sv (Response_id r)); [now apply Ext_refl|].
  pose proof (RequestDispatcher_from_ext (Response_request r) sv scope Hi) as H1.
  destruct (RequestDispatcher_from sv scope (Response_request r)) as [sv1 q].
  apply (Ext_trans _ _ _ H1). apply Dispatcher_new_ext, (ext_inv _ _ H1).
Qed.

Lemma RouteDispatcher_from_ext sv scope r :
  Inv sv -> Ext sv (fst (RouteDispatcher_from sv scope r)).
Proof.
  intros Hi. unfold RouteDispatcher_from.
  destruct (existingDispatcher sv (Route_id r)); [now apply Ext_refl|].
  pose proof (RequestDispatcher_from_ext (Route_request r) sv scope Hi) as H1.
  destruct (RequestDispatcher_from sv scope (Route_request r)) as [sv1 q].
  apply (Ext_trans _ _ _ H1). apply Dispatcher_new_ext, (ext_inv _ _ H1).
Qed.

Lemma FetchRequestDispatcher_from_ext sv scope r :
  Inv sv -> Ext sv (fst (FetchRequestDispatcher_from sv scope r)).
Proof.
  intros Hi. unfold FetchRequestDispatcher_from.
  destruct (existingDispatcher sv (FetchRequest_id r)); [now apply Ext_refl|].
  pose proof (Dispatcher_new_ext sv scope (FetchRequest_id r) "FetchRequest"
                FetchRequestInitializer true Hi) as H1.
  pose proof (Dispatcher_new_this sv scope (FetchRequest_id r) "FetchRequest"
                FetchRequestInitializer true) as Hthis.
  destruct (Dispatcher_new sv scope (FetchRequest_id r) "FetchRequest"
              FetchRequestInitializer true) as [sv0 this].
  cbn [fst snd] in *. apply (Ext_trans _ _ _ H1).
  apply once_ext; [exact (ext_inv _ _ H1) | exact Hthis].
Qed.

Lemma WebSocketDispatcher_new_ext sv scope ws :
  Inv sv -> Ext sv (fst (WebSocketDispatcher_new sv scope ws)).
Proof.
  intros Hi. unfold WebSocketDispatcher_new.
  pose proof (Dispatcher_new_ext sv scope (WebSocket_id ws) "WebSocket"
                (WebSocketInitializer (WebSocket_url ws)) false Hi) as H0.
  pose proof (Dispatcher_new_this sv scope (WebSocket_id ws) "WebSocket"
                (WebSocketInitializer (WebSocket_url ws)) false) as Hthis.
  destruct (Dispatcher_new sv scope (WebSocket_id ws) "WebSocket"
              (WebSocketInitializer (WebSocket_url ws)) false) as [sv0 this].
  cbn [fst snd] in *.
  pose proof (on_ext sv0 (WebSocket_id ws) WebSocket_FrameSent (OnFrameSent this)
                (ext_inv _ _ H0) Hthis) as H1.
  pose proof (on_ext _ (WebSocket_id ws) WebSocket_FrameReceived
                (OnFrameReceived this) (ext_inv _ _ H1)
                (ext_heap _ _ H1 _ Hthis)) as H2.
  pose proof (on_ext _ (WebSocket_id ws) WebSocket_SocketError
                (OnSocketError this) (ext_inv _ _ H2)
                (ext_heap _ _ H2 _ (ext_heap _ _ H1 _ Hthis))) as H3.
  pose proof (on_ext _ (WebSocket_id ws) WebSocket_Close
                (OnClose this) (ext_inv _ _ H3)
                (ext_heap _ _ H3 _ (ext_heap _ _ H2 _ (ext_heap _ _ H1 _ Hthis))))
    as H4.
  exact (Ext_trans _ _ _ H0
           (Ext_trans _ _ _ H1 (Ext_trans _ _ _ H2 (Ext_trans _ _ _ H3 H4)))).
Qed.

Lemma step_ext sv a : Inv sv -> Ext sv (step sv a).
Proof.
  intros Hi. destruct a as [scope r|scope w|scope r|scope r|scope r|o ev arg|g];
    cbn [step].
  - now apply FetchRequestDispatcher_from_ext.
  - now apply WebSocketDispatcher_new_ext.
  - now apply RequestDispatcher_from_ext.
  - now apply ResponseDispatcher_from_ext.
  - now apply RouteDispatcher_from_ext.
  - now apply emit_ext.
  - destruct (decide (g ∈ table sv)) as [Hg|]; [|now apply Ext_refl].
    destruct (inv_table sv Hi g Hg) as [Hs Hd].
    now apply Dispatcher_dispose_ext.
Qed.

Lemma run_ext actions : forall sv, Inv sv -> Ext sv (run sv actions).
Proof.
  induction actions as [|a actions IH]; intros sv Hi; cbn [run fold_left].
  - now apply Ext_refl.
  - pose proof (step_ext sv a Hi) as H1.
    apply (Ext_trans _ _ _ H1). apply IH, (ext_inv _ _ H1).
Qed.

(** C6. In every state the server reaches, at most one [__dispose__] has
    gone out for any dispatcher; a disposed dispatcher stays disposed
    whatever happens next; and the [Dispose] listener of a
    [FetchRequestDispatcher] that is already disposed does nothing. *)
Theorem dispose_at_most_once (actions : list Action) (g : guid) :
  (disposeCount g (wire (run emptyServer actions)) <= 1)%nat /\
  (isDisposed (run emptyServer actions) g = true ->
   forall more, isDisposed (run (run emptyServer actions) more) g = true) /\
  (isDisposed (run emptyServer actions) g = true ->
   forall arg, runHandler (OnDispose g) arg (run emptyServer actions)
               = run emptyServer actions).
Proof.
  pose proof (run_ext actions emptyServer Inv_empty) as [Hi _ _].
  split; [|split].
  - rewrite (inv_count _ Hi g). destruct (isDisposed _ g); lia.
  - intros Hd more. exact (ext_disposed _ _ (run_ext more _ Hi) g Hd).
  - intros Hd arg. cbn [runHandler]. now rewrite Hd.
Qed.

Lemma dispose_at_most_once_witness :
  let request := {| FetchRequest_id := 4%positive |} in
  let actions := [NewFetchRequestDispatcher 9%positive request;
                  Cascade 1%positive] in
  isDisposed (run emptyServer actions) 1%positive = true /\
  isDisposed
    (run (run emptyServer actions)
         [Emit 4%positive FetchRequest_Dispose VUndefined]) 1%positive = true /\
  runHandler (OnDispose 1%positive) VUndefined (run emptyServer actions)
  = run emptyServer actions.
Proof.
  intros request actions.
  pose proof (dispose_at_most_once actions 1%positive) as [_ [H1 H2]].
  split; [reflexivity|]. split.
  - exact (H1 eq_refl [Emit 4%positive FetchRequest_Dispose VUndefined]).
  - exact (H2 eq_refl VUndefined).
Defined.

(** *** One dispatcher per wrapped object *)

Lemma Registered_onePerObject sv : Registered sv -> onePerObject sv.
Proof.
  intros Hr g1 g2 d1 d2 H1 H2 Ho.
  apply Hr in H1. apply Hr in H2. rewrite Ho in H1. congruence.
Qed.

Lemma Registered_empty : Registered emptyServer.
Proof. intros g d H. cbn in H. now rewrite lookup_empty in H. Qed.

Lemma Dispatcher_new_registered sv scope o type_ init isScope :
  Inv sv -> Registered sv -> dispatcherSymbol sv !! o = None ->
  Registered (fst (Dispatcher_new sv scope o type_ init isScope)).
Proof.
  intros Hi Hr Hnone g d. cbn.
  destruct (decide (g = nextGuid sv)) as [->|Hne].
  - rewrite lookup_insert_eq. intros [= <-]. cbn. apply lookup_insert_eq.
  - rewrite lookup_insert_ne by congruence. intros Hd.
    assert (Hold : exists d0, heap sv !! g = Some d0 /\ _object d = _object d0).
    { destruct (decide (g = scope)) as [->|Hs].
      - rewrite lookup_alter_eq in Hd.
        destruct (heap sv !! scope) as [d0|]; [|discriminate].
        injection Hd as <-. now exists d0.
      - rewrite lookup_alter_ne in Hd by congruence. now exists d. }
    destruct Hold as (d0 & Hd0 & ->). apply Hr in Hd0.
    rewrite lookup_insert_ne; [exact Hd0|]. intros Heq.
    rewrite <- Heq in Hd0. congruence.
Qed.

Lemma Dispatcher_new_symbol_other sv scope o type_ init isScope o' :
  o' <> o ->
  dispatcherSymbol (fst (Dispatcher_new sv scope o type_ init isScope)) !! o'
  = dispatcherSymbol sv !! o'.
Proof. intros Hne. cbn. now rewrite lookup_insert_ne by congruence. Qed.

Lemma FrameDispatcher_from_symbol_other sv scope fr o' :
  o' <> fr ->
  dispatcherSymbol (fst (FrameDispatcher_from sv scope fr)) !! o'
  = dispatcherSymbol sv !! o'.
Proof.
  intros Hne. unfold FrameDispatcher_from.
  destruct (existingDispatcher sv fr); [reflexivity|].
  now apply Dispatcher_new_symbol_other.
Qed.

Lemma FrameDispatcher_from_registered sv scope fr :
  Inv sv -> Registered sv -> Registered (fst (FrameDispatcher_from sv scope fr)).
Proof.
  intros Hi Hr. unfold FrameDispatcher_from, existingDispatcher.
  destruct (dispatcherSymbol sv !! fr) eqn:E; [exact Hr|].
  now apply Dispatcher_new_registered.
Qed.

Lemma RequestDispatcher_from_symbol_other r :
  forall sv scope o',
    ~ In o' (requestObjects r) ->
    dispatcherSymbol (fst (RequestDispatcher_from sv scope r)) !! o'
    = dispatcherSymbol sv !! o'.
Proof.
  induction r as [id fr url rt me pd hd nav|id fr url rt me pd hd nav r' IH]
    using Request_ind'; intros sv scope o'; unfold_request_from; intros Hnot;
    (destruct (existingDispatcher sv id); [reflexivity|]);
    pose proof (FrameDispatcher_from_symbol_other sv scope fr o') as H1;
    destruct (FrameDispatcher_from sv scope fr) as [sv1 frame]; cbn [fst] in H1.
  - rewrite Dispatcher_new_symbol_other by notin Hnot.
    apply H1. notin Hnot.
  - pose proof (IH sv1 scope o') as H2.
    destruct (RequestDispatcher_from sv1 scope r') as [sv2 d]; cbn [fst] in H2.
    rewrite Dispatcher_new_symbol_other by notin Hnot.
    rewrite H2 by notin Hnot. apply H1. notin Hnot.
Qed.

Lemma RequestDispatcher_from_registered r :
  forall sv scope,
    wfRequest r -> Inv sv -> Registered sv ->
    Registered (fst (RequestDispatcher_from sv scope r)).
Proof.
  induction r as [id fr url rt me pd hd nav|id fr url rt me pd hd nav r' IH]
    using Request_ind'; intros sv scope; unfold_request_from;
    intros Hwf Hi Hr; unfold existingDispatcher;
    (destruct (dispatcherSymbol sv !! id) eqn:E; [exact Hr|]);
    pose proof (FrameDispatcher_from_symbol_other sv scope fr id) as Hs1;
    pose proof (FrameDispatcher_from_ext sv scope fr Hi) as He1;
    pose proof (FrameDispatcher_from_registered sv scope fr Hi Hr) as Hr1;
    destruct (FrameDispatcher_from sv scope fr) as [sv1 frame];
    cbn [fst] in Hs1, He1, Hr1.
  - apply Dispatcher_new_registered; [exact (ext_inv _ _ He1) | exact Hr1|].
    rewrite Hs1 by tauto. exact E.
  - destruct Hwf as (Hne & Hnot & Hwf').
    pose proof (RequestDispatcher_from_symbol_other r' sv1 scope id Hnot) as Hs2.
    pose proof (RequestDispatcher_from_ext r' sv1 scope (ext_inv _ _ He1)) as He2.
    pose proof (IH sv1 scope Hwf' (ext_inv _ _ He1) Hr1) as Hr2.
    destruct (RequestDispatcher_from sv1 scope r') as [sv2 d];
      cbn [fst] in Hs2, He2, Hr2.
    apply Dispatcher_new_registered; [exact (ext_inv _ _ He2) | exact Hr2|].
    rewrite Hs2, Hs1 by tauto. exact E.
Qed.

Lemma Dispatcher_dispose_registered sv this :
  Registered sv -> Registered (Dispatcher_dispose sv this).
Proof.
  intros Hr g d. cbn. intros Hd.
  assert (Hold : exists d0, heap sv !! g = Some d0 /\ _object d = _object d0).
  { apply lookup_alter_Some in Hd as [(_ & d1 & Hd1 & ->)|[_ Hd1]];
      cbn [markDisposed _object];
      (apply lookup_alter_Some in Hd1 as [(_ & d2 & Hd2 & ->)|[_ Hd2]];
       [now exists d2 | eauto]). }
  destruct Hold as (d0 & Hd0 & ->). now apply Hr.
Qed.

Lemma runHandler_registered h arg sv :
  Registered sv -> Registered (runHandler h arg sv).
Proof.
  intros Hr. destruct h as [t|t|t|t|t]; cbn [runHandler]; try exact Hr.
  destruct (negb (isDisposed sv t)); [|exact Hr].
  now apply Dispatcher_dispose_registered.
Qed.

Lemma emit_registered sv o ev arg : Registered sv -> Registered (emit sv o ev arg).
Proof.
  intros Hr. unfold emit.
  set (fired := List.filter _ (listenersOf sv o)).
  assert (H0 : Registered (setListeners sv
                 (<[o := List.filter
                           (fun l => negb (EventName_eqb (l_event l) ev && l_once l))
                           (listenersOf sv o)]> (listeners sv)))) by exact Hr.
  revert H0. generalize (setListeners sv
                 (<[o := List.filter
                           (fun l => negb (EventName_eqb (l_event l) ev && l_once l))
                           (listenersOf sv o)]> (listeners sv))).
  induction fired as [|l fired IH]; intros s Hs; cbn [fold_left]; [exact Hs|].
  apply IH. now apply runHandler_registered.
Qed.

Lemma step_registered sv a :
  viaFactories a -> Inv sv -> Registered sv -> Registered (step sv a).
Proof.
  intros Hv Hi Hr.
  destruct a as [scope r|scope w|scope r|scope r|scope r|o ev arg|g];
    cbn [step viaFactories] in *.
  - unfold FetchRequestDispatcher_from, existingDispatcher.
    destruct (dispatcherSymbol sv !! FetchRequest_id r) eqn:E; [exact Hr|].
    exact (Dispatcher_new_registered sv scope (FetchRequest_id r) "FetchRequest"
             FetchRequestInitializer true Hi Hr E).
  - contradiction.
  - now apply RequestDispatcher_from_registered.
  - destruct Hv as [Hnot Hwf].
    unfold ResponseDispatcher_from, existingDispatcher.
    destruct (dispatcherSymbol sv !! Response_id r) eqn:E; [exact Hr|].
    pose proof (RequestDispatcher_from_symbol_other (Response_request r) sv scope
                  (Response_id r) Hnot) as Hs.
    pose proof (RequestDispatcher_from_ext (Response_request r) sv scope Hi) as He.
    pose proof (RequestDispatcher_from_registered (Response_request r) sv scope
                  Hwf Hi Hr) as Hr1.
    destruct (RequestDispatcher_from sv scope (Response_request r)) as [sv1 q];
      cbn [fst] in *.
    apply Dispatcher_new_registered; [exact (ext_inv _ _ He) | exact Hr1|].
    now rewrite Hs.
  - destruct Hv as [Hnot Hwf].
    unfold RouteDispatcher_from, existingDispatcher.
    destruct (dispatcherSymbol sv !! Route_id r) eqn:E; [exact Hr|].
    pose proof (RequestDispatcher_from_symbol_other (Route_request r) sv scope
                  (Route_id r) Hnot) as Hs.
    pose proof (RequestDispatcher_from_ext (Route_request r) sv scope Hi) as He.
    pose proof (RequestDispatcher_from_registered (Route_request r) sv scope
                  Hwf Hi Hr) as Hr1.
    destruct (RequestDispatcher_from sv scope (Route_request r)) as [sv1 q];
      cbn [fst] in *.
    apply Dispatcher_new_registered; [exact (ext_inv _ _ He) | exact Hr1|].
    now rewrite Hs.
  - now apply emit_registered.
  - destruct (decide (g ∈ table sv)); [|exact Hr].
    now apply Dispatcher_dispose_registered.
Qed.

Lemma run_registered actions :
  forall sv, Forall viaFactories actions -> Inv sv -> Registered sv ->
             Registered (run sv actions).
Proof.
  induction actions as [|a actions IH]; intros sv Hv Hi Hr; cbn [run fold_left];
    [exact Hr|].
  apply Forall_cons in Hv as [Ha Hv].
  apply IH; [exact Hv | exact (ext_inv _ _ (step_ext sv a Hi))|].
  now apply step_registered.
Qed.

(** *** What the factories return *)

Lemma wraps_new sv scope o type_ init isScope :
  wraps (fst (Dispatcher_new sv scope o type_ init isScope))
        (snd (Dispatcher_new sv scope o type_ init isScope)) o.
Proof.
  eexists. cbn [fst snd Dispatcher_new heap]. rewrite lookup_insert_eq.
  repeat split.
Qed.

Lemma wraps_new_old sv scope o type_ init isScope g o' :
  Inv sv -> wraps sv g o' ->
  wraps (fst (Dispatcher_new sv scope o type_ init isScope)) g o'.
Proof.
  intros Hi (d & Hd & Hg & Ho).
  assert (Hne : g <> nextGuid sv).
  { intros ->. pose proof (inv_fresh sv Hi (nextGuid sv) (ex_intro _ d Hd)). lia. }
  cbn [fst Dispatcher_new heap]. unfold wraps. cbn [heap].
  rewrite lookup_insert_ne by congruence.
  destruct (decide (g = scope)) as [->|Hs].
  - exists (addChild (nextGuid sv) d). rewrite lookup_alter_eq, Hd.
    repeat split; assumption.
  - exists d. rewrite lookup_alter_ne by congruence. repeat split; assumption.
Qed.

Lemma Dispatcher_new_symbolSound sv scope o type_ init isScope :
  Inv sv -> SymbolSound sv ->
  SymbolSound (fst (Dispatcher_new sv scope o type_ init isScope)).
Proof.
  intros Hi Hs o' g Hlook.
  change (<[o := nextGuid sv]> (dispatcherSymbol sv) !! o' = Some g) in Hlook.
  destruct (decide (o' = o)) as [->|Hne].
  - rewrite lookup_insert_eq in Hlook. injection Hlook as <-. apply wraps_new.
  - rewrite lookup_insert_ne in Hlook by congruence.
    apply wraps_new_old; [exact Hi | exact (Hs o' g Hlook)].
Qed.

Lemma Dispatcher_new_fresh sv0 sv scope o type_ init isScope :
  Ext sv0 sv ->
  heap sv0 !! snd (Dispatcher_new sv scope o type_ init isScope) = None.
Proof.
  intros He. cbn [snd Dispatcher_new].
  destruct (heap sv0 !! nextGuid sv) as [d|] eqn:E; [|reflexivity].
  pose proof (inv_fresh sv (ext_inv _ _ He) (nextGuid sv)
                (ext_heap _ _ He _ (ex_intro _ d E))). lia.
Qed.

Lemma Dispatcher_dispose_symbolSound sv this :
  SymbolSound sv -> SymbolSound (Dispatcher_dispose sv this).
Proof.
  intros Hs o g Hlook. destruct (Hs o g Hlook) as (d & Hd & Hg & Ho).
  unfold wraps. cbn [Dispatcher_dispose heap].
  set (parent := match heap sv !! this with
                 | Some d0 => d_parentScope d0
                 | None => this
                 end).
  assert (H1 : exists d1, alter (removeChild this) parent (heap sv) !! g = Some d1 /\
                          d_guid d1 = g /\ _object d1 = o).
  { destruct (decide (g = parent)) as [->|Hp].
    - exists (removeChild this d). rewrite lookup_alter_eq, Hd. now repeat split.
    - exists d. rewrite lookup_alter_ne by congruence. now repeat split. }
  destruct H1 as (d1 & Hd1 & Hg1 & Ho1).
  destruct (decide (g = this)) as [->|Ht].
  - exists (markDisposed d1). rewrite lookup_alter_eq, Hd1. now repeat split.
  - exists d1. rewrite lookup_alter_ne by congruence. now repeat split.
Qed.

Lemma runHandler_symbolSound h arg sv :
  SymbolSound sv -> SymbolSound (runHandler h arg sv).
Proof.
  intros Hs. destruct h as [t|t|t|t|t]; cbn [runHandler]; try exact Hs.
  destruct (negb (isDisposed sv t)); [|exact Hs].
  now apply Dispatcher_dispose_symbolSound.
Qed.

Lemma emit_symbolSound sv o ev arg :
  SymbolSound sv -> SymbolSound (emit sv o ev arg).
Proof.
  intros Hs. unfold emit.
  set (fired := List.filter _ (listenersOf sv o)).
  assert (H0 : SymbolSound (setListeners sv
                 (<[o := List.filter
                           (fun l => negb (EventName_eqb (l_event l) ev && l_once l))
                           (listenersOf sv o)]> (listeners sv)))) by exact Hs.
  revert H0. generalize (setListeners sv
                 (<[o := List.filter
                           (fun l => negb (EventName_eqb (l_event l) ev && l_once l))
                           (listenersOf sv o)]> (listeners sv))).
  induction fired as [|l fired IH]; intros s Hss; cbn [fold_left]; [exact Hss|].
  apply IH. now apply runHandler_symbolSound.
Qed.

Lemma FrameDispatcher_from_gives sv scope fr :
  Inv sv -> SymbolSound sv ->
  SymbolSound (fst (FrameDispatcher_from sv scope fr)) /\
  givesDispatcher sv (FrameDispatcher_from sv scope fr) fr.
Proof.
  intros Hi Hs. unfold FrameDispatcher_from, givesDispatcher.
  destruct (existingDispatcher sv fr) as [g|] eqn:E.
  - split; [exact Hs|]. split; [exact (Hs fr g E) | discriminate].
  - split; [now apply Dispatcher_new_symbolSound|].
    split; [apply wraps_new|]. intros _. apply Dispatcher_new_fresh.
    now apply Ext_refl.
Qed.

Lemma RequestDispatcher_from_gives r :
  forall sv scope,
    Inv sv -> SymbolSound sv ->
    SymbolSound (fst (RequestDispatcher_from sv scope r)) /\
    givesDispatcher sv (RequestDispatcher_from sv scope r) (Request_id r).
Proof.
  induction r as [id fr url rt me pd hd nav|id fr url rt me pd hd nav r' IH]
    using Request_ind'; intros sv scope Hi Hs; unfold_request_from;
    unfold givesDispatcher; cbn [Request_id];
    (destruct (existingDispatcher sv id) as [g|] eqn:E;
     [split; [exact Hs|]; split; [exact (Hs id g E) | discriminate]|]);
    pose proof (FrameDispatcher_from_ext sv scope fr Hi) as He1;
    destruct (FrameDispatcher_from_gives sv scope fr Hi Hs) as [Hs1 _];
    destruct (FrameDispatcher_from sv scope fr) as [sv1 frame];
    cbn [fst] in He1, Hs1.
  - split; [apply Dispatcher_new_symbolSound; [exact (ext_inv _ _ He1) | exact Hs1]|].
    split; [apply wraps_new|]. intros _. now apply Dispatcher_new_fresh.
  - pose proof (RequestDispatcher_from_ext r' sv1 scope (ext_inv _ _ He1)) as He2.
    destruct (IH sv1 scope (ext_inv _ _ He1) Hs1) as [Hs2 _].
    destruct (RequestDispatcher_from sv1 scope r') as [sv2 d]; cbn [fst] in He2, Hs2.
    split; [apply Dispatcher_new_symbolSound; [exact (ext_inv _ _ He2) | exact Hs2]|].
    split; [apply wraps_new|]. intros _.
    apply Dispatcher_new_fresh. exact (Ext_trans _ _ _ He1 He2).
Qed.

Lemma ResponseDispatcher_from_gives sv scope r :
  Inv sv -> SymbolSound sv ->
  SymbolSound (fst (ResponseDispatcher_from sv scope r)) /\
  givesDispatcher sv (ResponseDispatcher_from sv scope r) (Response_id r).
Proof.
  intros Hi Hs. unfold ResponseDispatcher_from, givesDispatcher.
  destruct (existingDispatcher sv (Response_id r)) as [g|] eqn:E.
  - split; [exact Hs|]. split; [exact (Hs _ g E) | discriminate].
  - pose proof (RequestDispatcher_from_ext (Response_request r) sv scope Hi) as He.
    destruct (RequestDispatcher_from_gives (Response_request r) sv scope Hi Hs)
      as [Hs1 _].
    destruct (RequestDispatcher_from sv scope (Response_request r)) as [sv1 q];
      cbn [fst] in He, Hs1.
    split; [apply Dispatcher_new_symbolSound; [exact (ext_inv _ _ He) | exact Hs1]|].
    split; [apply wraps_new|]. intros _. now apply Dispatcher_new_fresh.
Qed.

Lemma RouteDispatcher_from_gives sv scope r :
  Inv sv -> SymbolSound sv ->
  SymbolSound (fst (RouteDispatcher_from sv scope r)) /\
  givesDispatcher sv (RouteDispatcher_from sv scope r) (Route_id r).
Proof.
  intros Hi Hs. unfold RouteDispatcher_from, givesDispatcher.
  destruct (existingDispatcher sv (Route_id r)) as [g|] eqn:E.
  - split; [exact Hs|]. split; [exact (Hs _ g E) | discriminate].
  - pose proof (RequestDispatcher_from_ext (Route_request r) sv scope Hi) as He.
    destruct (RequestDispatcher_from_gives (Route_request r) sv scope Hi Hs)
      as [Hs1 _].
    destruct (RequestDispatcher_from sv scope (Route_request r)) as [sv1 q];
      cbn [fst] in He, Hs1.
    split; [apply Dispatcher_new_symbolSound; [exact (ext_inv _ _ He) | exact Hs1]|].
    split; [apply wraps_new|]. intros _. now apply Dispatcher_new_fresh.
Qed.

Lemma FetchRequestDispatcher_from_gives sv scope r :
  Inv sv -> SymbolSound sv ->
  SymbolSound (fst (FetchRequestDispatcher_from sv scope r)) /\
  givesDispatcher sv (FetchRequestDispatcher_from sv scope r) (FetchRequest_id r).
Proof.
  intros Hi Hs. unfold FetchRequestDispatcher_from, givesDispatcher.
  destruct (existingDispatcher sv (FetchRequest_id r)) as [g|] eqn:E.
  - split; [exact Hs|]. split; [exact (Hs _ g E) | discriminate].
  - pose proof (Dispatcher_new_symbolSound sv scope (FetchRequest_id r)
                  "FetchRequest" FetchRequestInitializer true Hi Hs) as Hs1.
    pose proof (wraps_new sv scope (FetchRequest_id r) "FetchRequest"
                  FetchRequestInitializer true) as Hw.
    pose proof (Dispatcher_new_fresh sv sv scope (FetchRequest_id r)
                  "FetchRequest" FetchRequestInitializer true (Ext_refl sv Hi))
      as Hf.
    destruct (Dispatcher_new sv scope (FetchRequest_id r) "FetchRequest"
                FetchRequestInitializer true) as [sv0 this].
    cbn [fst snd] in *. split; [exact Hs1|]. split; [exact Hw | intros _; exact Hf].
Qed.

Lemma step_symbolSound sv a :
  Inv sv -> SymbolSound sv -> SymbolSound (step sv a).
Proof.
  intros Hi Hs.
  destruct a as [scope r|scope w|scope r|scope r|scope r|o ev arg|g]; cbn [step].
  - now apply FetchRequestDispatcher_from_gives.
  - unfold WebSocketDispatcher_new.
    pose proof (Dispatcher_new_symbolSound sv scope (WebSocket_id w) "WebSocket"
                  (WebSocketInitializer (WebSocket_url w)) false Hi Hs) as Hs1.
    destruct (Dispatcher_new sv scope (WebSocket_id w) "WebSocket"
                (WebSocketInitializer (WebSocket_url w)) false) as [sv0 this].
    exact Hs1.
  - now apply RequestDispatcher_from_gives.
  - now apply ResponseDispatcher_from_gives.
  - now apply RouteDispatcher_from_gives.
  - now apply emit_symbolSound.
  - destruct (decide (g ∈ table sv)); [|exact Hs].
    now apply Dispatcher_dispose_symbolSound.
Qed.

Lemma run_symbolSound actions :
  forall sv, Inv sv -> SymbolSound sv -> SymbolSound (run sv actions).
Proof.
  induction actions as [|a actions IH]; intros sv Hi Hs; cbn [run fold_left];
    [exact Hs|].
  apply IH; [exact (ext_inv _ _ (step_ext sv a Hi))|].
  now apply step_symbolSound.
Qed.

Lemma SymbolSound_empty : SymbolSound emptyServer.
Proof. intros o g H. cbn in H. now rewrite lookup_empty in H. Qed.

(** In a state with one dispatcher per object, a dispatcher that wraps the
    object is the only one. *)
Lemma wraps_theDispatcherOf (res : Server * guid) o :
  onePerObject (fst res) -> wraps (fst res) (snd res) o -> theDispatcherOf res o.
Proof.
  intros Hone Hw. split; [exact Hw|].
  intros g (d & Hd & _ & Ho). destruct Hw as (d0 & Hd0 & _ & Ho0).
  apply (Hone g (snd res) d d0 Hd Hd0). congruence.
Qed.

(** C4. Each of the four [from] factories is idempotent: called again on
    the state the first call left, for the same wrapped object and whatever
    scope, it returns the dispatcher of the first call and leaves the state
    as it is. In every state the server reaches, what a factory returns is a
    dispatcher of the resulting state that wraps the object, one the call
    created when the object had none. And as long as dispatchers are made by
    these factories, for objects with identities of their own, no two
    dispatchers wrap the same object: what a factory returns is the one
    dispatcher of its object. *)
Theorem from_idempotent (sv : Server) (scope scope' : guid) :
  (forall r : Request,
     RequestDispatcher_from (fst (RequestDispatcher_from sv scope r)) scope' r
     = RequestDispatcher_from sv scope r) /\
  (forall r : Response,
     ResponseDispatcher_from (fst (ResponseDispatcher_from sv scope r)) scope' r
     = ResponseDispatcher_from sv scope r) /\
  (forall r : Route,
     RouteDispatcher_from (fst (RouteDispatcher_from sv scope r)) scope' r
     = RouteDispatcher_from sv scope r) /\
  (forall r : FetchRequest,
     FetchRequestDispatcher_from (fst (FetchRequestDispatcher_from sv scope r))
       scope' r
     = FetchRequestDispatcher_from sv scope r) /\
  (forall actions,
     Forall viaFactories actions -> onePerObject (run emptyServer actions)) /\
  (forall actions,
     (forall r : Request,
        givesDispatcher (run emptyServer actions)
          (RequestDispatcher_from (run emptyServer actions) scope r)
          (Request_id r)) /\
     (forall r : Response,
        givesDispatcher (run emptyServer actions)
          (ResponseDispatcher_from (run emptyServer actions) scope r)
          (Response_id r)) /\
     (forall r : Route,
        givesDispatcher (run emptyServer actions)
          (RouteDispatcher_from (run emptyServer actions) scope r)
          (Route_id r)) /\
     (forall r : FetchRequest,
        givesDispatcher (run emptyServer actions)
          (FetchRequestDispatcher_from (run emptyServer actions) scope r)
          (FetchRequest_id r))) /\
  (forall actions,
     Forall viaFactories actions ->
     (forall r : Request,
        wfRequest r ->
        theDispatcherOf (RequestDispatcher_from (run emptyServer actions) scope r)
          (Request_id r)) /\
     (forall r : Response,
        ~ In (Response_id r) (requestObjects (Response_request r)) ->
        wfRequest (Response_request r) ->
        theDispatcherOf (ResponseDispatcher_from (run emptyServer actions) scope r)
          (Response_id r)) /\
     (forall r : Route,
        ~ In (Route_id r) (requestObjects (Route_request r)) ->
        wfRequest (Route_request r) ->
        theDispatcherOf (RouteDispatcher_from (run emptyServer actions) scope r)
          (Route_id r)) /\
     (forall r : FetchRequest,
        theDispatcherOf
          (FetchRequestDispatcher_from (run emptyServer actions) scope r)
          (FetchRequest_id r))).
Proof.
  assert (Hreach : forall actions,
             Inv (run emptyServer actions) /\ SymbolSound (run emptyServer actions)).
  { intros actions. split.
    - exact (ext_inv _ _ (run_ext actions emptyServer Inv_empty)).
    - exact (run_symbolSound actions emptyServer Inv_empty SymbolSound_empty). }
  assert (Hone : forall actions a,
             Forall viaFactories actions -> viaFactories a ->
             onePerObject (step (run emptyServer actions) a)).
  { intros actions a Hv Ha. apply Registered_onePerObject.
    apply step_registered; [exact Ha | exact (proj1 (Hreach actions))|].
    apply run_registered; [exact Hv | exact Inv_empty | exact Registered_empty]. }
  split; [|split; [|split; [|split; [|split; [|split]]]]].
  - intros r.
    rewrite (RequestDispatcher_from_existing _ _ _ _
               (RequestDispatcher_from_registers sv scope r)).
    now destruct (RequestDispatcher_from sv scope r).
  - intros r. unfold ResponseDispatcher_from at 1.
    rewrite ResponseDispatcher_from_registers.
    now destruct (ResponseDispatcher_from sv scope r).
  - intros r. unfold RouteDispatcher_from at 1.
    rewrite RouteDispatcher_from_registers.
    now destruct (RouteDispatcher_from sv scope r).
  - intros r. unfold FetchRequestDispatcher_from at 1.
    rewrite FetchRequestDispatcher_from_registers.
    now destruct (FetchRequestDispatcher_from sv scope r).
  - intros actions Hv. apply Registered_onePerObject.
    apply run_registered; [exact Hv | exact Inv_empty | exact Registered_empty].
  - intros actions. destruct (Hreach actions) as [Hi Hs].
    split; [|split; [|split]]; intros r.
    + now apply RequestDispatcher_from_gives.
    + now apply ResponseDispatcher_from_gives.
    + now apply RouteDispatcher_from_gives.
    + now apply FetchRequestDispatcher_from_gives.
  - intros actions Hv. destruct (Hreach actions) as [Hi Hs].
    split; [|split; [|split]].
    + intros r Hwf. apply wraps_theDispatcherOf.
      * exact (Hone actions (NewRequestDispatcher scope r) Hv Hwf).
      * now apply RequestDispatcher_from_gives.
    + intros r Hnot Hwf. apply wraps_theDispatcherOf.
      * exact (Hone actions (NewResponseDispatcher scope r) Hv (conj Hnot Hwf)).
      * now apply ResponseDispatcher_from_gives.
    + intros r Hnot Hwf. apply wraps_theDispatcherOf.
      * exact (Hone actions (NewRouteDispatcher scope r) Hv (conj Hnot Hwf)).
      * now apply RouteDispatcher_from_gives.
    + intros r. apply wraps_theDispatcherOf.
      * exact (Hone actions (NewFetchRequestDispatcher scope r) Hv I).
      * now apply FetchRequestDispatcher_from_gives.
Qed.

Lemma from_idempotent_witness :
  let r1 := MkRequest 10%positive 20%positive "http://a/" "document" "GET" None
              (VObject []) true None in
  let r2 := MkRequest 11%positive 20%positive "http://b/" "document" "GET" None
              (VObject []) true (Some r1) in
  let actions := [NewRequestDispatcher 1%positive r2;
                  NewRequestDispatcher 1%positive r2;
                  NewRouteDispatcher 1%positive
                    {| Route_id := 12%positive; Route_request := r2 |}] in
  RequestDispatcher_from (fst (RequestDispatcher_from emptyServer 1%positive r2))
    7%positive r2
  = RequestDispatcher_from emptyServer 1%positive r2 /\
  onePerObject (run emptyServer actions) /\
  theDispatcherOf (RequestDispatcher_from (run emptyServer actions) 1%positive r2)
    11%positive /\
  snd (RequestDispatcher_from (run emptyServer actions) 1%positive r2) = 3%positive.
Proof.
  intros r1 r2 actions.
  pose proof (from_idempotent emptyServer 1 7)%positive
    as (H1 & _ & _ & _ & H5 & _ & H7).
  assert (Hv : Forall viaFactories actions).
  { repeat (apply Forall_cons; split); [| | |apply Forall_nil_2];
      cbn; repeat split; try discriminate;
      intros Hin; repeat (destruct Hin as [Hin|Hin]; [discriminate|]); exact Hin. }
  assert (Hwf : wfRequest r2).
  { cbn; repeat split; try discriminate.
    intros Hin; repeat (destruct Hin as [Hin|Hin]; [discriminate|]); exact Hin. }
  split; [exact (H1 r2)|]. split; [exact (H5 actions Hv)|].
  split; [exact (proj1 (H7 actions Hv) r2 Hwf) | reflexivity].
Defined.

(** The sample redirect: one dispatcher each for the frame, the two
    requests and the route, whatever the number of calls. *)
Example from_sample :
  let r1 := MkRequest 10%positive 20%positive "http://a/" "document" "GET" None (VObject []) true
              None in
  let r2 := MkRequest 11%positive 20%positive "http://b/" "document" "GET" None (VObject []) true
              (Some r1) in
  let sv := run emptyServer
              [NewRequestDispatcher 1%positive r2; NewRequestDispatcher 1%positive r2;
               NewRouteDispatcher 1%positive {| Route_id := 12%positive; Route_request := r2 |}] in
  size (heap sv) = 4%nat /\
  snd (RequestDispatcher_from sv 1%positive r1) = 2%positive /\
  snd (RequestDispatcher_from sv 1%positive r2) = 3%positive /\
  snd (FrameDispatcher_from sv 1%positive 20%positive) = 1%positive.
Proof. vm_compute. repeat split. Qed.

(** A dispatcher disposed by the cascade: the later [Dispose] event of its
    request adds nothing to the wire. *)
Example dispose_sample :
  let request := {| FetchRequest_id := 4%positive |} in
  let sv := run emptyServer [NewFetchRequestDispatcher 9%positive request;
                             Cascade 1%positive] in
  wire sv = [Create 1%positive "FetchRequest" FetchRequestInitializer;
             Dispose 1%positive] /\
  wire (step sv (Emit 4%positive FetchRequest_Dispose VUndefined)) = wire sv.
Proof. vm_compute. split; reflexivity. Qed.

(** The same event on a live dispatcher disposes it, once. *)
Example dispose_by_event_sample :
  let request := {| FetchRequest_id := 4%positive |} in
  let sv := run emptyServer
              [NewFetchRequestDispatcher 9%positive request;
               Emit 4%positive FetchRequest_Dispose VUndefined;
               Emit 4%positive FetchRequest_Dispose VUndefined;
               Cascade 1%positive] in
  wire sv = [Create 1%positive "FetchRequest" FetchRequestInitializer;
             Dispose 1%positive] /\
  isDisposed sv 1%positive = true.
Proof. vm_compute. split; reflexivity. Qed.

End DispatcherFacts.

Module ConnectionFacts.
Import Connection.

Lemma NoDup_map_filter {A B} (f : A -> B) (g : A -> bool) (l : list A) :
  List.NoDup (map f l) -> List.NoDup (map f (List.filter g l)).
Proof.
  induction l as [|a l IH]; cbn; [trivial|].
  rewrite List.NoDup_cons_iff. intros [Hnot Hnd].
  destruct (g a); cbn; [|now apply IH].
  apply List.NoDup_cons_iff. split; [|now apply IH].
  intros Hin. apply Hnot. apply in_map_iff in Hin as (x & Hx & Hin).
  apply List.filter_In in Hin as [Hin _]. apply in_map_iff. eauto.
Qed.

Lemma increasing_snoc ids id :
  increasing ids -> (forall a, In a ids -> a < id) -> increasing (ids ++ [id]).
Proof.
  intros Hinc Hlt i j a b Hij Ha Hb.
  destruct (decide (j < List.length ids)%nat) as [Hj|Hj].
  - rewrite lookup_app_l in Ha by lia. rewrite lookup_app_l in Hb by lia.
    exact (Hinc i j a b Hij Ha Hb).
  - rewrite lookup_app_r in Hb by lia.
    destruct (j - List.length ids)%nat as [|n] eqn:E; cbn in Hb; [|discriminate].
    injection Hb as <-. rewrite lookup_app_l in Ha by lia.
    apply Hlt. apply list_elem_of_In. eapply list_elem_of_lookup_2, Ha.
Qed.

Lemma PendingInv_new : PendingInv newConnection.
Proof.
  split; cbn; try tauto; [constructor|].
  intros i j a b _ Ha. now rewrite lookup_nil in Ha.
Qed.

Lemma sendMessageToServer_inv c guid method trace :
  PendingInv c -> PendingInv (fst (sendMessageToServer c guid method trace)).
Proof.
  intros [Hp Hn Hs Hi]. split; cbn.
  - intros p Hin. apply in_app_or in Hin as [Hin|[<-|[]]]; cbn; [|lia].
    apply Hp in Hin. lia.
  - rewrite map_app. cbn. apply NoDup_ListNoDup, NoDup_app.
    split; [now apply NoDup_ListNoDup|]. split; [|apply NoDup_singleton].
    intros x Hx Hx'. apply list_elem_of_singleton in Hx' as ->.
    apply list_elem_of_In, in_map_iff in Hx as (p & Hid & Hin).
    apply Hp in Hin. lia.
  - intros r Hin. apply in_app_or in Hin as [Hin|[<-|[]]]; cbn; [|lia].
    apply Hs in Hin. lia.
  - rewrite map_app. cbn. apply increasing_snoc; [exact Hi|].
    intros a Ha. apply in_map_iff in Ha as (r & <- & Hin). apply Hs in Hin. lia.
Qed.

Lemma dispatchResponse_inv c id :
  PendingInv c -> PendingInv (fst (dispatchResponse c id)).
Proof.
  intros Hc. unfold dispatchResponse. cbn [fst].
  destruct (List.find _ (callbacks c)) as [found|]; [|exact Hc].
  destruct Hc as [Hp Hn Hs Hi]. split; cbn; try assumption.
  - intros p Hin. apply List.filter_In in Hin as [Hin _]. now apply Hp.
  - now apply NoDup_map_filter.
Qed.

Lemma close_inv c : PendingInv c -> PendingInv (close c).
Proof.
  intros [Hp Hn Hs Hi]. split; cbn; try assumption; [tauto | constructor].
Qed.

Lemma step_inv c o : PendingInv c -> PendingInv (step c o).
Proof.
  intros Hc. destruct o as [guid method trace|id|]; cbn [step].
  - now apply sendMessageToServer_inv.
  - now apply dispatchResponse_inv.
  - now apply close_inv.
Qed.

Lemma run_inv ops : PendingInv (run ops).
Proof.
  unfold run. generalize PendingInv_new. generalize newConnection.
  induction ops as [|o ops IH]; intros c Hc; cbn [fold_left]; [exact Hc|].
  apply IH. now apply step_inv.
Qed.

(** After a response the call is no longer pending; another message with
    the same id finds nothing and changes nothing. *)
Lemma dispatchResponse_twice c id :
  dispatchResponse (fst (dispatchResponse c id)) id
  = (fst (dispatchResponse c id), None).
Proof.
  assert (Hnone : forall l,
             List.find (fun p => pc_id p =? id)
               (List.filter (fun p => negb (pc_id p =? id)) l) = None).
  { induction l as [|p l IH]; cbn; [reflexivity|].
    destruct (pc_id p =? id) eqn:E; cbn; [exact IH|]. now rewrite E. }
  unfold dispatchResponse. cbn [fst].
  destruct (List.find _ (callbacks c)) as [found|] eqn:E; cbn [callbacks].
  - now rewrite Hnone.
  - now rewrite E.
Qed.

(** C5. Whatever was sent, received or closed on a connection: the pending
    calls have pairwise distinct ids, the requests went out with increasing
    ids, and the id the next call gets is held by no pending call and exceeds
    every id allocated before. *)
Theorem pending_ids_unique (ops : list Op) :
  List.NoDup (map pc_id (callbacks (run ops))) /\
  increasing (map rq_id (sent (run ops))) /\
  (forall guid method trace,
     ~ In (snd (sendMessageToServer (run ops) guid method trace))
          (map pc_id (callbacks (run ops))) /\
     (forall r, In r (sent (run ops)) ->
                rq_id r < snd (sendMessageToServer (run ops) guid method trace))).
Proof.
  destruct (run_inv ops) as [Hp Hn Hs Hi].
  split; [exact Hn|]. split; [exact Hi|].
  intros guid method trace. cbn [sendMessageToServer snd]. split.
  - intros Hin. apply in_map_iff in Hin as (p & Hid & Hin). apply Hp in Hin. lia.
  - intros r Hin. apply Hs in Hin. lia.
Qed.

Lemma pending_ids_unique_witness :
  let trace := {| StackTrace.allFrames := []; StackTrace.frames := [];
                  StackTrace.frameTexts := []; StackTrace.apiName := "page.click" |} in
  let ops := [Send "page@1" "click" trace; Send "page@1" "goto" trace;
              Receive 1; Send "frame@2" "title" trace] in
  map pc_id (callbacks (run ops)) = [2; 3] /\
  rq_id {| rq_id := 2; rq_guid := "page@1"; rq_method := "goto" |}
  < snd (sendMessageToServer (run ops) "page@1" "fill" trace).
Proof.
  intros trace ops. split; [reflexivity|].
  refine (proj2 (proj2 (proj2 (pending_ids_unique ops)) "page@1" "fill" trace) _ _).
  cbn. right. now left.
Defined.

End ConnectionFacts.

(** * Further properties *)

(** ** More on the string primitives *)
Module JSMore.
Import JS JSFacts.

Lemma length_app a b :
  String.length (a +:+ b) = (String.length a + String.length b)%nat.
Proof.
  induction a as [|c a IH]; [reflexivity|].
  change (S (String.length (a +:+ b)) = S (String.length a + String.length b)).
  now rewrite IH.
Qed.

Lemma app_assoc a b c : (a +:+ b) +:+ c = a +:+ (b +:+ c).
Proof.
  induction a as [|x a IH]; [reflexivity|].
  change (String x ((a +:+ b) +:+ c) = String x (a +:+ (b +:+ c))).
  now rewrite IH.
Qed.

Lemma substring_app_prefix pre rest :
  substring 0 (String.length pre) (pre +:+ rest) = pre.
Proof.
  induction pre as [|c pre IH]; [now destruct rest|].
  change (String c (substring 0 (String.length pre) (pre +:+ rest)) = String c pre).
  now rewrite IH.
Qed.

Lemma substring_app_skip pre rest n m :
  substring (String.length pre + n) m (pre +:+ rest) = substring n m rest.
Proof. induction pre as [|c pre IH]; [reflexivity | exact IH]. Qed.

Lemma indexOf_from_app c pre rest i :
  ~ In c (list_ascii_of_string pre) ->
  indexOf_from c (pre +:+ String c rest) i = i + Z.of_nat (String.length pre).
Proof.
  revert i; induction pre as [|a pre IH]; intros i Hnot; simpl.
  - rewrite Ascii.eqb_refl. lia.
  - destruct (Ascii.eqb_spec a c) as [->|Hne]; [exfalso; apply Hnot; now left|].
    rewrite IH; [lia|]. intros H. apply Hnot. now right.
Qed.

(** A string either lacks [c] or splits at its first [c]. *)
Lemma first_occurrence c s :
  ~ In c (list_ascii_of_string s) \/
  exists pre rest, s = pre +:+ String c rest /\ ~ In c (list_ascii_of_string pre).
Proof.
  induction s as [|a s IH]; [left; simpl; tauto|].
  destruct (Ascii.eqb_spec a c) as [->|Hne].
  - right. exists EmptyString, s. split; [reflexivity | simpl; tauto].
  - destruct IH as [Hnot|(pre & rest & -> & Hnot)].
    + left. simpl. tauto.
    + right. exists (String a pre), rest. split; [reflexivity|]. simpl. tauto.
Qed.

Lemma split_without sep l :
  ~ In sep (list_ascii_of_string l) -> split sep l = [l].
Proof.
  induction l as [|c l IH]; simpl; [reflexivity|]. intros Hnot.
  destruct (Ascii.eqb_spec c sep) as [->|Hne]; [exfalso; apply Hnot; now left|].
  rewrite IH; [reflexivity|]. intros H. apply Hnot. now right.
Qed.

(** Splitting distributes over a separator in the middle. *)
Lemma split_app sep a b :
  split sep (a +:+ String sep b) = (split sep a ++ split sep b)%list.
Proof.
  induction a as [|c a IH]; simpl.
  - now rewrite Ascii.eqb_refl.
  - destruct (Ascii.eqb_spec c sep) as [->|Hne].
    + now rewrite IH.
    + rewrite IH. pose proof (split_nonempty sep a) as Hn.
      now destruct (split sep a).
Qed.

(** Splitting undoes joining, for pieces free of the separator. *)
Lemma split_join sep (lines : list string) :
  lines <> [] ->
  (forall l, In l lines -> ~ In sep (list_ascii_of_string l)) ->
  split sep (join (String sep EmptyString) lines) = lines.
Proof.
  induction lines as [|l ls IH]; [congruence|]. intros _ Hfree.
  destruct ls as [|l' ls].
  - simpl. apply split_without, Hfree. now left.
  - change (join (String sep EmptyString) (l :: l' :: ls))
      with (l +:+ String sep (join (String sep EmptyString) (l' :: ls))).
    rewrite split_app, IH; [|discriminate|intros x Hx; apply Hfree; now right].
    rewrite split_without; [reflexivity|]. apply Hfree. now left.
Qed.

End JSMore.

(** ** More on utils/stackTrace.ts *)
Module StackTraceMore.
Import JS JSFacts JSMore StackTrace StackTraceFacts.

(** *** [splitErrorMessage] *)

Lemma splitErrorMessage_at_colon pre rest :
  ~ In ":"%char (list_ascii_of_string pre) ->
  splitErrorMessage (pre +:+ String ":"%char rest)
  = {| nm_name := pre;
       nm_message := match rest with
                     | EmptyString => pre +:+ ":"
                     | String _ rest' => rest'
                     end |}.
Proof.
  intros Hnot. unfold splitErrorMessage, indexOf.
  rewrite (indexOf_from_app _ _ _ 0 Hnot), Z.add_0_l.
  destruct (Z.eqb_spec (Z.of_nat (String.length pre)) (-1)) as [?|_]; [lia|].
  cbn [negb andb]. unfold length. rewrite length_app. cbn [String.length].
  f_equal.
  - unfold slice, relIndex, length. rewrite length_app. cbn [String.length].
    change (0 <? 0) with false. cbv iota.
    destruct (Z.ltb_spec (Z.of_nat (String.length pre)) 0); [lia|].
    replace (Z.to_nat (Z.min 0 _)) with 0%nat by lia.
    replace (Z.to_nat _) with (String.length pre) by lia.
    apply substring_app_prefix.
  - destruct rest as [|a rest']; cbn [String.length].
    + destruct (Z.leb_spec (Z.of_nat (String.length pre) + 2)
                  (Z.of_nat (String.length pre + 1))); [lia | reflexivity].
    + destruct (Z.leb_spec (Z.of_nat (String.length pre) + 2)
                  (Z.of_nat (String.length pre + S (S (String.length rest')))));
        [|lia].
      unfold substringFrom, length. rewrite length_app. cbn [String.length].
      replace (Z.to_nat (Z.min _ _)) with (String.length pre + 2)%nat by lia.
      replace (Z.to_nat _) with (String.length rest') by lia.
      rewrite substring_app_skip. cbn [substring]. apply substring_0_all.
Qed.

(** X1. The title [name: message] of an error splits back into its name and
    message, provided the name has no colon. *)
Theorem splitErrorMessage_title (name_ message_ : string) :
  ~ In ":"%char (list_ascii_of_string name_) ->
  splitErrorMessage (name_ +:+ ": " +:+ message_)
  = {| nm_name := name_; nm_message := message_ |}.
Proof.
  intros Hnot. exact (splitErrorMessage_at_colon name_ (String " " message_) Hnot).
Qed.

Lemma splitErrorMessage_title_witness :
  splitErrorMessage ("TimeoutError" +:+ ": " +:+ "page.click: Timeout 30000ms exceeded.")
  = {| nm_name := "TimeoutError";
       nm_message := "page.click: Timeout 30000ms exceeded." |}.
Proof.
  apply splitErrorMessage_title. cbn.
  intros H. repeat (destruct H as [H|H]; [discriminate|]). exact H.
Defined.

(** X2. Whatever the input, the name holds no colon and the message is a
    suffix of the input; where the input has a colon the name is what
    precedes the first one, and the code unit after that colon is left out of
    the message whether or not it is a space. *)
Theorem splitErrorMessage_shape (s : string) :
  ~ In ":"%char (list_ascii_of_string (nm_name (splitErrorMessage s))) /\
  (exists pre, s = pre +:+ nm_message (splitErrorMessage s)) /\
  (forall pre c rest,
     s = pre +:+ String ":"%char (String c rest) ->
     ~ In ":"%char (list_ascii_of_string pre) ->
     splitErrorMessage s = {| nm_name := pre; nm_message := rest |}).
Proof.
  split; [|split].
  - destruct (first_occurrence ":"%char s) as [Hnot|(pre & rest & -> & Hnot)].
    + unfold splitErrorMessage, indexOf.
      apply (indexOf_from_absent _ _ 0) in Hnot; [|lia]. rewrite Hnot. cbn. tauto.
    + now rewrite splitErrorMessage_at_colon.
  - destruct (first_occurrence ":"%char s) as [Hnot|(pre & rest & -> & Hnot)].
    + exists EmptyString. unfold splitErrorMessage, indexOf.
      apply (indexOf_from_absent _ _ 0) in Hnot; [|lia]. now rewrite Hnot.
    + rewrite splitErrorMessage_at_colon by exact Hnot. cbn [nm_message].
      destruct rest as [|a rest'].
      * now exists EmptyString.
      * exists (pre +:+ String ":"%char (String a EmptyString)).
        now rewrite app_assoc.
  - intros pre c rest -> Hnot. now rewrite splitErrorMessage_at_colon.
Qed.

Lemma splitErrorMessage_shape_witness :
  splitErrorMessage "Error:boom" = {| nm_name := "Error"; nm_message := "oom" |}.
Proof.
  refine (proj2 (proj2 (splitErrorMessage_shape "Error:boom"))
            "Error" "b"%char "oom" eq_refl _).
  cbn. intros H. repeat (destruct H as [H|H]; [discriminate|]). exact H.
Defined.

(** *** [rewriteErrorMessage] *)

Lemma filter_idem {A} (f : A -> bool) (l : list A) :
  List.filter f (List.filter f l) = List.filter f l.
Proof.
  induction l as [|a l IH]; [reflexivity|]. cbn.
  destruct (f a) eqn:E; [|exact IH]. cbn. now rewrite E, IH.
Qed.

Lemma frameLines_free e l :
  In l (List.filter isFrameLine (stackLines e)) ->
  ~ In nl (list_ascii_of_string l).
Proof.
  intros Hin. apply List.filter_In in Hin as [Hin _].
  unfold stackLines in Hin. destruct (stack e) as [st|]; [|contradiction].
  exact (split_no_sep nl st l Hin).
Qed.

(** The lines of a rewritten stack: those of the title, then the frame
    lines. *)
Lemma stackLines_rewriteError e m :
  List.filter isFrameLine (stackLines e) <> [] ->
  stackLines (rewriteError e m)
  = (split nl (name e +:+ ": " +:+ m)
     ++ List.filter isFrameLine (stackLines e))%list.
Proof.
  intros Hne. unfold rewriteError. fold (stackLines e).
  pose proof (frameLines_free e) as Hfree.
  destruct (List.filter isFrameLine (stackLines e)) as [|x xs]; [congruence|].
  cbn [List.length Nat.eqb negb name message]. unfold stackLines at 1. cbn [stack].
  change ((name e +:+ ": " +:+ m) +:+ NL +:+ join NL (x :: xs))
    with ((name e +:+ ": " +:+ m) +:+ String nl (join (String nl EmptyString) (x :: xs))).
  rewrite split_app, split_join; [reflexivity | discriminate | exact Hfree].
Qed.

Lemma frameLines_rewriteError e m :
  (forall l, In l (split nl (name e +:+ ": " +:+ m)) -> isFrameLine l = false) ->
  List.filter isFrameLine (stackLines (rewriteError e m))
  = List.filter isFrameLine (stackLines e).
Proof.
  intros Htitle.
  destruct (List.filter isFrameLine (stackLines e)) as [|x xs] eqn:Hf.
  - assert (Hs : stack (rewriteError e m) = stack e).
    { apply rewriteError_stack_none. now apply filter_nil_iff. }
    unfold stackLines at 1. rewrite Hs. exact Hf.
  - rewrite stackLines_rewriteError by (rewrite Hf; discriminate).
    rewrite List.filter_app, filter_idem.
    apply filter_nil_iff in Htitle. now rewrite Htitle, Hf.
Qed.

Lemma rewriteError_unfold e m :
  rewriteError e m
  = if negb (Nat.eqb (List.length (List.filter isFrameLine (stackLines e))) 0)
    then {| name := name e; message := m;
            stack := Some ((name e +:+ ": " +:+ m) +:+ NL
                           +:+ join NL (List.filter isFrameLine (stackLines e))) |}
    else {| name := name e; message := m; stack := stack e |}.
Proof. reflexivity. Qed.

Lemma rewriteError_twice e m1 m2 :
  (forall l, In l (split nl (name e +:+ ": " +:+ m1)) -> isFrameLine l = false) ->
  rewriteError (rewriteError e m1) m2 = rewriteError e m2.
Proof.
  intros Htitle.
  pose proof (frameLines_rewriteError e m1 Htitle) as Hframes.
  rewrite (rewriteError_unfold (rewriteError e m1) m2), (rewriteError_unfold e m2).
  rewrite Hframes, rewriteError_name.
  destruct (List.filter isFrameLine (stackLines e)) as [|x xs] eqn:Hf;
    cbn [List.length Nat.eqb negb]; [|reflexivity].
  f_equal. apply rewriteError_stack_none. now apply filter_nil_iff.
Qed.

(** X3. Rewriting the message keeps the frame lines of the stack as they
    are, as long as no line of the new title [name: message] itself starts
    with ["    at "]. *)
Theorem rewriteErrorMessage_keeps_frames (h : gmap loc JsError) (e : loc)
    (o : JsError) (m : string) :
  h !! e = Some o ->
  (forall l, In l (split nl (name o +:+ ": " +:+ m)) -> isFrameLine l = false) ->
  exists o', fst (rewriteErrorMessage h e m) !! e = Some o' /\
             List.filter isFrameLine (stackLines o')
             = List.filter isFrameLine (stackLines o).
Proof.
  intros Hlook Htitle. exists (rewriteError o m). split.
  - unfold rewriteErrorMessage. cbn [fst]. now rewrite lookup_alter_eq, Hlook.
  - now apply frameLines_rewriteError.
Qed.

Lemma rewriteErrorMessage_keeps_frames_witness :
  let o := {| name := "TimeoutError"; message := "old";
              stack := Some "TimeoutError: old
    at remote (/srv/a.js:1:1)
junk
    at handler (/home/u/a.spec.js:8:3)" |} in
  let h : gmap loc JsError := {[ 1%positive := o ]} in
  exists o', fst (rewriteErrorMessage h 1%positive "new") !! 1%positive = Some o' /\
             List.filter isFrameLine (stackLines o')
             = ["    at remote (/srv/a.js:1:1)";
                "    at handler (/home/u/a.spec.js:8:3)"].
Proof.
  intros o h.
  refine (rewriteErrorMessage_keeps_frames h 1%positive o "new" eq_refl _).
  intros l [<-|[]]. reflexivity.
Defined.

(** X4. Rewriting twice is rewriting once with the last message, as long as
    no line of the first title starts with ["    at "]. *)
Theorem rewriteErrorMessage_twice (h : gmap loc JsError) (e : loc)
    (o : JsError) (m1 m2 : string) :
  h !! e = Some o ->
  (forall l, In l (split nl (name o +:+ ": " +:+ m1)) -> isFrameLine l = false) ->
  rewriteErrorMessage (fst (rewriteErrorMessage h e m1)) e m2
  = rewriteErrorMessage h e m2.
Proof.
  intros Hlook Htitle. unfold rewriteErrorMessage. cbn [fst]. f_equal.
  apply map_eq. intros k. destruct (decide (k = e)) as [->|Hne].
  - rewrite !lookup_alter_eq, Hlook. cbn. f_equal. now apply rewriteError_twice.
  - now rewrite !lookup_alter_ne by congruence.
Qed.

Lemma rewriteErrorMessage_twice_witness :
  let o := {| name := "Error"; message := "old";
              stack := Some "Error: old
    at handler (/home/u/a.spec.js:8:3)" |} in
  let h : gmap loc JsError := {[ 1%positive := o ]} in
  rewriteErrorMessage (fst (rewriteErrorMessage h 1%positive "first")) 1%positive
    "second"
  = rewriteErrorMessage h 1%positive "second".
Proof.
  intros o h.
  refine (rewriteErrorMessage_twice h 1%positive o "first" "second" eq_refl _).
  intros l [<-|[]]. reflexivity.
Defined.

(** Without the proviso the first message leaks into the frames. *)
Example rewriteError_title_with_frame :
  let o := {| name := "Error"; message := "old";
              stack := Some "Error: old
    at handler (/home/u/a.spec.js:8:3)" |} in
  stack (rewriteError (rewriteError o "x
    at fake (f.js:1:1)") "y")
  = Some "Error: y
    at fake (f.js:1:1)
    at handler (/home/u/a.spec.js:8:3)".
Proof. reflexivity. Qed.

(** *** [captureStackTrace] *)

Lemma Forall2_map_same {A B C} (R : B -> C -> Prop) (f : A -> B) (g : A -> C)
    (l : list A) :
  (forall x, In x l -> R (f x) (g x)) -> Forall2 R (map f l) (map g l).
Proof.
  induction l as [|a l IH]; intros H; cbn; constructor.
  - apply H. now left.
  - apply IH. intros x Hx. apply H. now right.
Qed.

Lemma head_map_drop {A B} (f : A -> B) (l : list A) (n : nat) (x : A) :
  l !! n = Some x -> head (map f (drop n l)) = Some (f x).
Proof.
  revert l; induction n as [|n IH]; intros [|a l] H; try discriminate.
  - now injection H as ->.
  - exact (IH l H).
Qed.

Lemma In_drop {A} (l : list A) (n : nat) (x : A) : In x (drop n l) -> In x l.
Proof.
  revert l; induction n as [|n IH]; intros [|a l] H; cbn in *; auto.
Qed.

Lemma uniform_no_transition pfs b :
  (forall pf, In pf pfs -> inClient pf = b) -> forall i, ~ isTransition pfs i.
Proof.
  intros Hall i (p & q & Hp & Hq & Hpc & Hqc).
  apply list_elem_of_lookup_2, list_elem_of_In, Hall in Hp.
  apply list_elem_of_lookup_2, list_elem_of_In, Hall in Hq.
  congruence.
Qed.

Section CaptureMore.

Variable parseLine : string -> option StackLineData.
Variable path_sep : string.
Variable path_resolve : string -> string -> string.
Variables CLIENT_LIB CLIENT_SRC TEST_LIB TEST_SRC : string.
Variable isUnderTest : bool.
Variable toLowerCase : string -> string.
Variable newErrorStack : Z -> string.

Local Abbreviation capture :=
  (captureStackTrace parseLine path_sep path_resolve
     CLIENT_LIB CLIENT_SRC TEST_LIB TEST_SRC isUnderTest toLowerCase newErrorStack).

Local Abbreviation parseFrame_ cwd :=
  (parseFrame parseLine path_sep path_resolve
     CLIENT_LIB CLIENT_SRC TEST_LIB TEST_SRC cwd isUnderTest).

Local Abbreviation parsed g :=
  (parseFrames parseLine path_sep path_resolve
     CLIENT_LIB CLIENT_SRC TEST_LIB TEST_SRC (process_cwd g) isUnderTest
     (newErrorStack 30)).

(** What a line that is kept looks like. *)
Lemma parseFrame_Some cwd line_ pf :
  parseFrame_ cwd line_ = Some pf ->
  exists raw file0,
    parseLine line_ = Some raw /\ sl_file raw = Some file0 /\
    file0 <> "" /\
    startsWith "internal" file0 = false /\
    includes (path_join path_sep ["node_modules"; "expect"]) file0 = false /\
    frame pf = {| file := path_resolve cwd file0; line := sl_line raw;
                  column := sl_column raw; function := sl_function raw |} /\
    frameText pf = line_.
Proof.
  unfold parseFrame. intros H.
  destruct (parseLine line_) as [raw|]; [|discriminate].
  destruct (sl_file raw) as [file0|] eqn:Hfile; [|discriminate].
  destruct file0 as [|c file0]; [discriminate|]. cbn [truthy negb] in H.
  destruct (startsWith "internal" (String c file0)) eqn:Hint; [discriminate|].
  destruct (includes _ (String c file0)) eqn:Hexp; [discriminate|].
  destruct (isUnderTest && _); [discriminate|].
  injection H as <-. exists raw, (String c file0).
  repeat split; try assumption; try reflexivity. discriminate.
Qed.

Lemma parsed_In g pf :
  In pf (parsed g) ->
  exists line_, In line_ (split nl (newErrorStack 30)) /\
                parseFrame_ (process_cwd g) line_ = Some pf.
Proof.
  intros H. apply list_elem_of_In, list_elem_of_omap in H as (line_ & Hin & Hp).
  exists line_. split; [now apply list_elem_of_In | exact Hp].
Qed.

Lemma selectFrames_drop pfs :
  exists n, snd (selectFrames toLowerCase pfs) = drop n pfs.
Proof.
  unfold selectFrames. destruct (apiEntry 0 pfs) as [i|]; [|now exists 0%nat].
  destruct (pfs !! i); [now exists (S i) | now exists 0%nat].
Qed.

Lemma result_frames g :
  allFrames (fst (capture g)) = map frame (parsed g) /\
  frames (fst (capture g))
  = map frame (snd (selectFrames toLowerCase (parsed g))) /\
  frameTexts (fst (capture g))
  = map frameText (snd (selectFrames toLowerCase (parsed g))) /\
  apiName (fst (capture g)) = fst (selectFrames toLowerCase (parsed g)).
Proof.
  rewrite captureStackTrace_result. unfold parseStack.
  now destruct (selectFrames toLowerCase _).
Qed.

(** X5. [frames] is [allFrames] without some first frames, and [frameTexts]
    goes with it frame by frame: each text is a line of the captured stack,
    and the frame at its position is the one parsed from it. *)
Theorem captureStackTrace_aligned (g : Globals) :
  (exists n, frames (fst (capture g)) = drop n (allFrames (fst (capture g)))) /\
  Forall2 (fun f t =>
             In t (split nl (newErrorStack 30)) /\
             exists pf, parseFrame_ (process_cwd g) t = Some pf /\ frame pf = f)
    (frames (fst (capture g))) (frameTexts (fst (capture g))).
Proof.
  destruct (result_frames g) as (Hall & Hfr & Htx & _).
  destruct (selectFrames_drop (parsed g)) as [n Hn].
  rewrite Hall, Hfr, Htx, Hn. split.
  - exists n. symmetry. apply skipn_map.
  - apply Forall2_map_same. intros pf Hin. apply In_drop in Hin.
    apply parsed_In in Hin as (line_ & Hline & Hp).
    destruct (parseFrame_Some _ _ _ Hp) as (raw & file0 & _ & _ & _ & _ & _ & _ & Ht).
    rewrite Ht. split; [exact Hline|]. now exists pf.
Qed.

(** X6. With a transition in the captured stack, [frames] and [frameTexts]
    start with the frame right after the deepest transition, a frame that is
    not in-client. *)
Theorem captureStackTrace_first_frame (g : Globals) (i : nat) :
  deepestTransition (parsed g) i ->
  exists q, parsed g !! S i = Some q /\ inClient q = false /\
            head (frames (fst (capture g))) = Some (frame q) /\
            head (frameTexts (fst (capture g))) = Some (frameText q).
Proof.
  intros Hd. destruct (proj1 Hd) as (p & q & Hp & Hq & _ & Hqc).
  destruct (result_frames g) as (_ & Hfr & Htx & _).
  rewrite (selectFrames_transition toLowerCase _ i p Hd Hp) in Hfr, Htx.
  cbn [snd] in Hfr, Htx. exists q. rewrite Hfr, Htx.
  repeat split; try assumption; now apply head_map_drop.
Qed.

(** X7. No frame of [allFrames] comes from a line the parser rejects, from a
    line without a file, from a file whose name starts with [internal], or
    from a file under [node_modules/expect]; and its file is the resolved
    path of the file on the line. *)
Theorem captureStackTrace_allFrames_sound (g : Globals) (f : StackFrame) :
  In f (allFrames (fst (capture g))) ->
  exists line_ raw file0,
    In line_ (split nl (newErrorStack 30)) /\
    parseLine line_ = Some raw /\ sl_file raw = Some file0 /\
    file0 <> "" /\
    startsWith "internal" file0 = false /\
    includes (path_join path_sep ["node_modules"; "expect"]) file0 = false /\
    f = {| file := path_resolve (process_cwd g) file0; line := sl_line raw;
           column := sl_column raw; function := sl_function raw |}.
Proof.
  rewrite (proj1 (result_frames g)). intros Hin.
  apply in_map_iff in Hin as (pf & <- & Hin).
  apply parsed_In in Hin as (line_ & Hline & Hp).
  destruct (parseFrame_Some _ _ _ Hp)
    as (raw & file0 & Hraw & Hfile & Hne & Hint & Hexp & Hframe & _).
  exists line_, raw, file0. repeat split; assumption.
Qed.

(** X8. When the parsed frames are all in-client, or all not, nothing is
    stripped and no API name is found. *)
Theorem captureStackTrace_uniform (g : Globals) (b : bool) :
  (forall pf, In pf (parsed g) -> inClient pf = b) ->
  apiName (fst (capture g)) = "" /\
  frames (fst (capture g)) = allFrames (fst (capture g)) /\
  frameTexts (fst (capture g)) = map frameText (parsed g).
Proof.
  intros Hall. destruct (result_frames g) as (Ha & Hfr & Htx & Hname).
  rewrite Ha, Hfr, Htx, Hname.
  now rewrite (selectFrames_no_transition toLowerCase _
                 (uniform_no_transition _ b Hall)).
Qed.

End CaptureMore.

Lemma captureStackTrace_first_frame_witness :
  head (frames (fst (Sample.capture Sample.callStack Sample.globals)))
  = Some Sample.frame_handler.
Proof.
  destruct (captureStackTrace_first_frame Sample.parseLine Sample.path_sep
              Sample.path_resolve Sample.CLIENT_LIB Sample.CLIENT_SRC
              Sample.TEST_LIB Sample.TEST_SRC false Sample.toLowerCase
              (Sample.stackOf Sample.callStack) Sample.globals 0%nat)
    as (q & Hq & _ & Hh & _).
  - split; [|intros j Hj; lia].
    exists {| frame := Sample.frame_click; frameText := Sample.line_click;
              inClient := true |},
           {| frame := Sample.frame_handler; frameText := Sample.line_handler;
              inClient := false |}.
    repeat split; reflexivity.
  - injection Hq as <-. exact Hh.
Defined.

Lemma captureStackTrace_allFrames_sound_witness :
  exists line_ raw file0,
    In line_ (split nl (Sample.stackOf Sample.callStack 30)) /\
    Sample.parseLine line_ = Some raw /\ sl_file raw = Some file0 /\
    file0 <> "" /\
    startsWith "internal" file0 = false /\
    includes (path_join Sample.path_sep ["node_modules"; "expect"]) file0 = false /\
    Sample.frame_click
    = {| file := Sample.path_resolve (process_cwd Sample.globals) file0;
         line := sl_line raw; column := sl_column raw;
         function := sl_function raw |}.
Proof.
  apply (captureStackTrace_allFrames_sound Sample.parseLine Sample.path_sep
           Sample.path_resolve Sample.CLIENT_LIB Sample.CLIENT_SRC
           Sample.TEST_LIB Sample.TEST_SRC false Sample.toLowerCase
           (Sample.stackOf Sample.callStack) Sample.globals).
  vm_compute. now left.
Defined.

Lemma captureStackTrace_uniform_witness :
  apiName (fst (Sample.capture [Sample.line_click; Sample.line_emit]
                  Sample.globals)) = "" /\
  frames (fst (Sample.capture [Sample.line_click; Sample.line_emit]
                 Sample.globals))
  = [Sample.frame_click; Sample.frame_emit].
Proof.
  destruct (captureStackTrace_uniform Sample.parseLine Sample.path_sep
              Sample.path_resolve Sample.CLIENT_LIB Sample.CLIENT_SRC
              Sample.TEST_LIB Sample.TEST_SRC false Sample.toLowerCase
              (Sample.stackOf [Sample.line_click; Sample.line_emit])
              Sample.globals true)
    as (H1 & H2 & _).
  - intros pf [<-|[<-|[]]]; reflexivity.
  - split; [exact H1 | exact H2].
Defined.

End StackTraceMore.

(** ** The report of pending calls *)
Module ReportingFacts.
Import JS StackTrace StackTraceFacts StackTraceMore Reporting.

Example numberToString_samples :
  numberToString 0 = "0" /\ numberToString 12 = "12" /\ numberToString (-3) = "-3".
Proof. repeat split. Qed.

Section FormatFacts.

Variable path_relative : string -> string -> string.
Variable path_basename : string -> string.

Local Abbreviation format := (formatPendingCalls path_relative path_basename).
Local Abbreviation formatFrame := (formatStackFrame path_relative path_basename).

(** The report is the empty string exactly when there is no pending call. *)
Lemma formatPendingCalls_empty_iff (cwd : string)
    (calls : list ParsedStackTrace) :
  format cwd calls = "" <-> calls = [].
Proof.
  destruct calls as [|c calls]; [split; reflexivity|].
  split; [|discriminate]. unfold formatPendingCalls. cbn [List.length Nat.eqb].
  change ("Pending operations:" +:+ NL) with "Pending operations:
".
  discriminate.
Qed.

Lemma truthy_iff s : truthy s = true <-> s <> "".
Proof. destruct s; cbn; split; congruence. Qed.

(** X9. The fixture's test of [prependToError] holds exactly when the test
    timed out and there is a pending call. Then an absent error becomes
    [{ value: report }], and an error with a message gets the report in
    front of its message and of its stack, if it has one; an error without a
    message, and any error when the test did not time out or nothing is
    pending, is left as it is. *)
Theorem prependPendingCalls_spec (cwd : string) (status : string)
    (calls : list ParsedStackTrace) :
  (truthy (prependToError path_relative path_basename cwd status calls) = true
   <-> status = "timedOut" /\ calls <> []) /\
  (forall error,
     status <> "timedOut" \/ calls = [] ->
     prependPendingCalls path_relative path_basename cwd status calls error
     = error) /\
  (status = "timedOut" -> calls <> [] ->
   prependPendingCalls path_relative path_basename cwd status calls None
   = Some {| te_message := None; te_stack := None;
             te_value := Some (format cwd calls) |}) /\
  (forall e m,
     status = "timedOut" -> calls <> [] ->
     te_message e = Some m -> m <> "" ->
     prependPendingCalls path_relative path_basename cwd status calls (Some e)
     = Some {| te_message := Some (format cwd calls +:+ m);
               te_stack := match te_stack e with
                           | Some st => if truthy st
                                        then Some (format cwd calls +:+ st)
                                        else Some st
                           | None => None
                           end;
               te_value := te_value e |}) /\
  (forall e,
     truthyOpt (te_message e) = false ->
     prependPendingCalls path_relative path_basename cwd status calls (Some e)
     = Some e).
Proof.
  assert (Hiff : truthy (prependToError path_relative path_basename cwd status calls)
                 = true <-> status = "timedOut" /\ calls <> []).
  { unfold prependToError. destruct (String.eqb_spec status "timedOut") as [->|Hne].
    - rewrite truthy_iff, formatPendingCalls_empty_iff. tauto.
    - cbn. split; [discriminate | tauto]. }
  assert (Hon : status = "timedOut" -> calls <> [] ->
                prependToError path_relative path_basename cwd status calls
                = format cwd calls).
  { intros -> _. reflexivity. }
  split; [exact Hiff|]. split; [|split; [|split]].
  - intros error Hoff. unfold prependPendingCalls.
    assert (E : truthy (prependToError path_relative path_basename cwd status calls)
                = false).
    { apply Bool.not_true_is_false. intros E. apply Hiff in E. tauto. }
    now rewrite E.
  - intros Hs Hc. unfold prependPendingCalls.
    rewrite (proj2 Hiff (conj Hs Hc)). now rewrite (Hon Hs Hc).
  - intros e m Hs Hc Hm Hne. unfold prependPendingCalls.
    rewrite (proj2 Hiff (conj Hs Hc)), (Hon Hs Hc), Hm.
    cbn [truthyOpt option_map]. rewrite (proj2 (truthy_iff m) Hne).
    destruct (te_stack e) as [st|]; cbn [truthyOpt option_map]; [|reflexivity].
    now destruct (truthy st).
  - intros e Hm. clear Hiff Hon. unfold prependPendingCalls. rewrite Hm.
    now destruct (truthy (prependToError _ _ cwd status calls)).
Qed.

Variable parseLine : string -> option StackLineData.
Variable path_sep : string.
Variable path_resolve : string -> string -> string.
Variables CLIENT_LIB CLIENT_SRC TEST_LIB TEST_SRC : string.
Variable isUnderTest : bool.
Variable toLowerCase : string -> string.
Variable newErrorStack : Z -> string.

Local Abbreviation capture :=
  (captureStackTrace parseLine path_sep path_resolve
     CLIENT_LIB CLIENT_SRC TEST_LIB TEST_SRC isUnderTest toLowerCase newErrorStack).

Local Abbreviation parsed g :=
  (parseFrames parseLine path_sep path_resolve
     CLIENT_LIB CLIENT_SRC TEST_LIB TEST_SRC (process_cwd g) isUnderTest
     (newErrorStack 30)).

(** X10. The report of one call whose captured stack has a transition names
    the API and the place of the frame right after the deepest transition;
    for a call whose stack gave no frame at all the place is [<unknown>]. *)
Theorem formatPendingCalls_location (cwd : string) (g : Globals) :
  (forall i q,
     deepestTransition (parsed g) i -> parsed g !! S i = Some q ->
     format cwd [fst (capture g)]
     = ("Pending operations:" +:+ NL)
       +:+ ("  - " +:+ apiName (fst (capture g)) +:+ " at "
            +:+ formatFrame cwd (frame q) +:+ NL)
       +:+ NL) /\
  (parsed g = [] ->
   format cwd [fst (capture g)]
   = ("Pending operations:" +:+ NL) +:+ ("  - " +:+ "" +:+ " at "
                                         +:+ "<unknown>" +:+ NL) +:+ NL).
Proof.
  assert (Hfr : frames (fst (capture g))
                = map frame (snd (selectFrames toLowerCase (parsed g))))
    by apply result_frames.
  assert (Hname : apiName (fst (capture g))
                  = fst (selectFrames toLowerCase (parsed g)))
    by apply result_frames.
  generalize dependent (fst (capture g)). intros r Hfr Hname.
  split.
  - intros i q Hd Hq. destruct (proj1 Hd) as (p & _ & Hp & _).
    rewrite (selectFrames_transition toLowerCase _ i p Hd Hp) in Hfr.
    cbn [snd] in Hfr. rewrite (drop_S _ _ _ Hq) in Hfr.
    unfold formatPendingCalls, formatPendingCall.
    cbn [List.length Nat.eqb map join]. now rewrite Hfr.
  - intros Hnil. rewrite Hnil in Hfr, Hname. cbn in Hfr, Hname.
    unfold formatPendingCalls, formatPendingCall.
    cbn [List.length Nat.eqb map join]. now rewrite Hfr, Hname.
Qed.

End FormatFacts.

Lemma prependPendingCalls_spec_witness :
  let call := fst (Sample.capture Sample.callStack Sample.globals) in
  prependPendingCalls sample_relative sample_basename "/home/u" "timedOut" [call]
    (Some {| te_message := Some "Timeout of 30000ms exceeded.";
             te_stack := None; te_value := None |})
  = Some {| te_message := Some "Pending operations:
  - page.click at a.spec.js:8:3

Timeout of 30000ms exceeded.";
            te_stack := None; te_value := None |} /\
  prependPendingCalls sample_relative sample_basename "/home/u" "failed" [call] None
  = None.
Proof.
  intros call.
  pose proof (prependPendingCalls_spec sample_relative sample_basename "/home/u"
                "timedOut" [call]) as (_ & _ & _ & H4 & _).
  pose proof (prependPendingCalls_spec sample_relative sample_basename "/home/u"
                "failed" [call]) as (_ & H2 & _).
  split.
  - refine (H4 {| te_message := Some "Timeout of 30000ms exceeded.";
                  te_stack := None; te_value := None |}
               "Timeout of 30000ms exceeded." eq_refl _ eq_refl _); discriminate.
  - apply H2. left. discriminate.
Defined.

Lemma formatPendingCalls_location_witness :
  formatPendingCalls sample_relative sample_basename "/home/u"
    [fst (Sample.capture Sample.callStack Sample.globals)]
  = "Pending operations:
  - page.click at a.spec.js:8:3

".
Proof.
  refine (proj1 (formatPendingCalls_location sample_relative sample_basename
                   Sample.parseLine Sample.path_sep Sample.path_resolve
                   Sample.CLIENT_LIB Sample.CLIENT_SRC Sample.TEST_LIB
                   Sample.TEST_SRC false Sample.toLowerCase
                   (Sample.stackOf Sample.callStack) "/home/u" Sample.globals)
            0%nat
            {| frame := Sample.frame_handler; frameText := Sample.line_handler;
               inClient := false |} _ eq_refl).
  split; [|intros j Hj; lia].
  exists {| frame := Sample.frame_click; frameText := Sample.line_click;
            inClient := true |},
         {| frame := Sample.frame_handler; frameText := Sample.line_handler;
            inClient := false |}.
  repeat split; reflexivity.
Defined.

End ReportingFacts.

(** ** More on dispatchers/networkDispatchers.ts *)
Module DispatcherMore.
Import Dispatchers DispatcherNotions DispatcherFacts.

(** *** [WebSocketDispatcher]: a run of events *)

Lemma emit_webSocket sv o this ev arg :
  listenersOf sv o = webSocketListeners this ->
  wire (emit sv o ev arg)
  = (wire sv ++ (match protocolEvent this ev arg with
                 | Some m => [m]
                 | None => []
                 end))%list /\
  listenersOf (emit sv o ev arg) o = webSocketListeners this.
Proof.
  intros Hls. unfold emit. rewrite Hls.
  destruct ev;
    cbn [webSocketListeners List.filter l_event l_once l_handler EventName_eqb
         andb negb fold_left runHandler protocolEvent];
    unfold listenersOf, Dispatcher_dispatchEvent, setWire, setListeners;
    cbn [wire listeners]; rewrite lookup_insert_eq;
    (split; [|reflexivity]); try reflexivity.
  now rewrite app_nil_r.
Qed.

Lemma emitAll_webSocket this o evs :
  forall sv,
    listenersOf sv o = webSocketListeners this ->
    wire (emitAll sv o evs) = (wire sv ++ protocolEvents this evs)%list.
Proof.
  induction evs as [|[ev arg] evs IH]; intros sv Hls.
  - cbn. now rewrite app_nil_r.
  - destruct (emit_webSocket sv o this ev arg Hls) as [Hw Hl].
    change (emitAll sv o ((ev, arg) :: evs)) with (emitAll (emit sv o ev arg) o evs).
    rewrite (IH _ Hl), Hw, <- app_assoc. f_equal.
    unfold protocolEvents. cbn [omap list_omap fst snd].
    now destruct (protocolEvent this ev arg).
Qed.

(** X11. The events a web socket emits after its dispatcher was constructed
    reach the wire as their protocol events, one each and in the order of
    emission; an event of another name adds nothing. *)
Theorem WebSocketDispatcher_forwards_in_order (sv : Server) (scope : guid)
    (ws : WebSocket) (evs : list (EventName * JsVal)) :
  listeners sv !! WebSocket_id ws = None ->
  wire (emitAll (fst (WebSocketDispatcher_new sv scope ws)) (WebSocket_id ws) evs)
  = (wire (fst (WebSocketDispatcher_new sv scope ws))
     ++ protocolEvents (snd (WebSocketDispatcher_new sv scope ws)) evs)%list.
Proof.
  intros Hfresh. apply emitAll_webSocket.
  now apply WebSocketDispatcher_new_listeners.
Qed.

Lemma WebSocketDispatcher_forwards_in_order_witness :
  let ws := {| WebSocket_id := 5%positive; WebSocket_url := "ws://h/" |} in
  let sv1 := fst (WebSocketDispatcher_new emptyServer 9%positive ws) in
  wire (emitAll sv1 5%positive
          [(WebSocket_FrameReceived, VString "a");
           (FetchRequest_Dispose, VUndefined);
           (WebSocket_SocketError, VString "reset");
           (WebSocket_Close, VUndefined)])
  = [Create 1%positive "WebSocket" (WebSocketInitializer "ws://h/");
     Event 1%positive "frameReceived" (VString "a");
     Event 1%positive "socketError" (VObject [("error", VString "reset")]);
     Event 1%positive "close" (VObject [])].
Proof.
  intros ws sv1.
  exact (WebSocketDispatcher_forwards_in_order emptyServer 9%positive ws _ eq_refl).
Defined.

(** *** [FetchRequestDispatcher]: the [Dispose] event *)






(** *** [fetchResponseBody] and [disposeFetchResponse] *)

(** X14. [disposeFetchResponse] removes the body stored under that
    [fetchUid] of that request, and no other: afterwards the lookup of it
    resolves with [undefined], and every other lookup resolves as before. *)
Theorem disposeFetchResponse_removes_one (sv : Server) (this_object : objId)
    (fetchUid : string) :
  FetchRequestDispatcher_fetchResponseBody
    (fst (FetchRequestDispatcher_disposeFetchResponse sv this_object fetchUid))
    this_object fetchUid
  = Resolved {| binary := None |} /\
  (forall o uid,
     (o, uid) <> (this_object, fetchUid) ->
     FetchRequestDispatcher_fetchResponseBody
       (fst (FetchRequestDispatcher_disposeFetchResponse sv this_object fetchUid))
       o uid
     = FetchRequestDispatcher_fetchResponseBody sv o uid).
Proof.
  split; [apply fetchResponseBody_after_dispose|].
  intros o uid Hne. unfold FetchRequestDispatcher_fetchResponseBody.
  cbn [FetchRequestDispatcher_disposeFetchResponse fst setFetchResponses
       fetchResponses].
  destruct (decide (o = this_object)) as [->|Ho].
  - rewrite lookup_alter_eq.
    destruct (fetchResponses sv !! this_object) as [m|]; cbn; [|reflexivity].
    rewrite lookup_delete_ne; [reflexivity|]. intros <-. now apply Hne.
  - now rewrite lookup_alter_ne by congruence.
Qed.

Lemma disposeFetchResponse_removes_one_witness :
  let sv := setFetchResponses emptyServer
              {[ 7%positive := {[ "uid-1" := [Byte.x68; Byte.x69];
                                  "uid-2" := [Byte.x68] ]} ]} in
  FetchRequestDispatcher_fetchResponseBody
    (fst (FetchRequestDispatcher_disposeFetchResponse sv 7%positive "uid-2"))
    7%positive "uid-1"
  = Resolved {| binary := Some "aGk=" |}.
Proof.
  intros sv.
  refine (proj2 (disposeFetchResponse_removes_one sv 7%positive "uid-2")
            7%positive "uid-1" _).
  discriminate.
Defined.

(** *** Creation before use on the wire *)

Lemma Grows_refl sv : Announced sv -> Grows sv sv.
Proof. intros H. now split. Qed.

Lemma Grows_trans a b c : Grows a b -> Grows b c -> Grows a c.
Proof.
  intros [_ H1] [Hc H2]. split; [exact Hc|]. intros g Hg. apply H2, H1, Hg.
Qed.

Lemma createdGuids_app w1 w2 :
  createdGuids (w1 ++ w2) = (createdGuids w1 ++ createdGuids w2)%list.
Proof. unfold createdGuids. apply flat_map_app. Qed.

Lemma createBeforeUse_snoc w m :
  forall seen,
    createBeforeUse seen (w ++ [m]) <->
    createBeforeUse seen w /\
    match m with
    | Create _ _ init =>
        forall r, In r (initializerRefs init) ->
                  In r (createdGuids w) \/ In r seen
    | _ => True
    end.
Proof.
  induction w as [|x w IH]; intros seen.
  - destruct m; cbn; firstorder.
  - destruct x as [g t i|g|g mt ps];
      cbn [app createBeforeUse createdGuids flat_map];
      rewrite IH; destruct m; cbn; firstorder.
Qed.

Lemma wire_new sv scope o type_ init isScope :
  wire (fst (Dispatcher_new sv scope o type_ init isScope))
  = (wire sv ++ [Create (nextGuid sv) type_ init])%list.
Proof. reflexivity. Qed.

Lemma created_new sv scope o type_ init isScope :
  createdGuids (wire (fst (Dispatcher_new sv scope o type_ init isScope)))
  = (createdGuids (wire sv) ++ [nextGuid sv])%list.
Proof. rewrite wire_new. apply createdGuids_app. Qed.

Lemma Dispatcher_new_grows sv scope o type_ init isScope :
  Announced sv ->
  (forall r, In r (initializerRefs init) -> In r (createdGuids (wire sv))) ->
  Grows sv (fst (Dispatcher_new sv scope o type_ init isScope)) /\
  In (snd (Dispatcher_new sv scope o type_ init isScope))
     (createdGuids (wire (fst (Dispatcher_new sv scope o type_ init isScope)))).
Proof.
  intros [Ho Hs] Hrefs.
  pose proof (created_new sv scope o type_ init isScope) as Hc.
  split; [split; [split|]|].
  - rewrite wire_new. apply createBeforeUse_snoc. split; [exact Ho|].
    intros r Hr. left. now apply Hrefs.
  - intros o' g. rewrite Hc. cbn [fst dispatcherSymbol Dispatcher_new].
    destruct (decide (o' = o)) as [->|Hne].
    + rewrite lookup_insert_eq. intros [= <-]. apply in_or_app. right. now left.
    + rewrite lookup_insert_ne by congruence. intros H.
      apply in_or_app. left. exact (Hs o' g H).
  - intros g Hg. rewrite Hc. apply in_or_app. now left.
  - rewrite Hc. apply in_or_app. right. now left.
Qed.

Lemma append_other sv m :
  Announced sv ->
  match m with Create _ _ _ => False | _ => True end ->
  createBeforeUse [] (wire sv ++ [m]) /\
  createdGuids (wire sv ++ [m]) = createdGuids (wire sv).
Proof.
  intros [Ho Hs] Hm. split.
  - apply createBeforeUse_snoc. split; [exact Ho|]. now destruct m.
  - rewrite createdGuids_app. destruct m; cbn; [contradiction| |];
      apply app_nil_r.
Qed.

Lemma Dispatcher_dispatchEvent_grows sv this method params :
  Announced sv -> Grows sv (Dispatcher_dispatchEvent sv this method params).
Proof.
  intros Ha.
  destruct (append_other sv (Event this method params) Ha I) as (H1 & H2).
  split; [split|].
  - exact H1.
  - intros o g Hg. cbn [wire Dispatcher_dispatchEvent setWire]. rewrite H2.
    exact (an_symbol sv Ha o g Hg).
  - intros g Hg. cbn [wire Dispatcher_dispatchEvent setWire]. now rewrite H2.
Qed.

Lemma Dispatcher_dispose_grows sv this :
  Announced sv -> Grows sv (Dispatcher_dispose sv this).
Proof.
  intros Ha.
  destruct (append_other sv (Dispose this) Ha I) as (H1 & H2).
  split; [split|].
  - exact H1.
  - intros o g Hg. cbn [wire Dispatcher_dispose]. rewrite H2.
    exact (an_symbol sv Ha o g Hg).
  - intros g Hg. cbn [wire Dispatcher_dispose]. now rewrite H2.
Qed.

Lemma setListeners_grows sv ls : Announced sv -> Grows sv (setListeners sv ls).
Proof. intros [Ho Hs]. split; [split|]; auto. Qed.

Lemma on_grows sv o ev h : Announced sv -> Grows sv (on sv o ev h).
Proof. intros Ha. now apply setListeners_grows. Qed.

Lemma runHandler_grows h arg sv : Announced sv -> Grows sv (runHandler h arg sv).
Proof.
  intros Ha. destruct h as [t|t|t|t|t]; cbn [runHandler];
    try now apply Dispatcher_dispatchEvent_grows.
  destruct (negb (isDisposed sv t)); [|now apply Grows_refl].
  now apply Dispatcher_dispose_grows.
Qed.

Lemma emit_grows sv o ev arg : Announced sv -> Grows sv (emit sv o ev arg).
Proof.
  intros Ha. unfold emit.
  set (fired := List.filter _ (listenersOf sv o)).
  set (kept := List.filter _ (listenersOf sv o)).
  pose proof (setListeners_grows sv (<[o := kept]> (listeners sv)) Ha) as H0.
  apply (Grows_trans _ _ _ H0). generalize (gr_announced _ _ H0).
  generalize (setListeners sv (<[o := kept]> (listeners sv))).
  induction fired as [|l fired IH]; intros s Hs; cbn [fold_left].
  - now apply Grows_refl.
  - pose proof (runHandler_grows (l_handler l) arg s Hs) as H1.
    apply (Grows_trans _ _ _ H1), IH, (gr_announced _ _ H1).
Qed.

Lemma existing_created sv o g :
  Announced sv -> existingDispatcher sv o = Some g ->
  In g (createdGuids (wire sv)).
Proof. intros Ha H. exact (an_symbol sv Ha o g H). Qed.

Lemma FrameDispatcher_from_grows sv scope fr :
  Announced sv ->
  Grows sv (fst (FrameDispatcher_from sv scope fr)) /\
  In (snd (FrameDispatcher_from sv scope fr))
     (createdGuids (wire (fst (FrameDispatcher_from sv scope fr)))).
Proof.
  intros Ha. unfold FrameDispatcher_from.
  destruct (existingDispatcher sv fr) as [g|] eqn:E.
  - split; [now apply Grows_refl | exact (existing_created sv fr g Ha E)].
  - apply Dispatcher_new_grows; [exact Ha | intros r []].
Qed.

Lemma RequestDispatcher_from_grows r :
  forall sv scope,
    Announced sv ->
    Grows sv (fst (RequestDispatcher_from sv scope r)) /\
    In (snd (RequestDispatcher_from sv scope r))
       (createdGuids (wire (fst (RequestDispatcher_from sv scope r)))).
Proof.
  induction r as [id fr url rt me pd hd nav|id fr url rt me pd hd nav r' IH]
    using Request_ind'; intros sv scope Ha; unfold_request_from;
    (destruct (existingDispatcher sv id) as [g|] eqn:E;
     [split; [now apply Grows_refl | exact (existing_created sv id g Ha E)]|]);
    destruct (FrameDispatcher_from_grows sv scope fr Ha) as [H1 Hf];
    destruct (FrameDispatcher_from sv scope fr) as [sv1 frame];
    cbn [fst snd] in H1, Hf.
  - destruct (Dispatcher_new_grows sv1 scope id "Request"
                (RequestInitializer frame url rt me (option_map base64 pd) hd nav None)
                false (gr_announced _ _ H1)) as [H2 Hin].
    { intros r [<-|[]]. exact Hf. }
    split; [exact (Grows_trans _ _ _ H1 H2) | exact Hin].
  - destruct (IH sv1 scope (gr_announced _ _ H1)) as [H2 Hd].
    destruct (RequestDispatcher_from sv1 scope r') as [sv2 d]; cbn [fst snd] in H2, Hd.
    destruct (Dispatcher_new_grows sv2 scope id "Request"
                (RequestInitializer frame url rt me (option_map base64 pd) hd nav
                   (Some d))
                false (gr_announced _ _ H2)) as [H3 Hin].
    { intros r [<-|[<-|[]]]; [exact (gr_created _ _ H2 _ Hf) | exact Hd]. }
    split; [exact (Grows_trans _ _ _ H1 (Grows_trans _ _ _ H2 H3)) | exact Hin].
Qed.

Lemma step_grows sv a : Announced sv -> Grows sv (step sv a).
Proof.
  intros Ha. destruct a as [scope r|scope w|scope r|scope r|scope r|o ev arg|g];
    cbn [step].
  - unfold FetchRequestDispatcher_from.
    destruct (existingDispatcher sv (FetchRequest_id r)); [now apply Grows_refl|].
    destruct (Dispatcher_new_grows sv scope (FetchRequest_id r) "FetchRequest"
                FetchRequestInitializer true Ha) as [H1 _]; [intros x []|].
    destruct (Dispatcher_new sv scope (FetchRequest_id r) "FetchRequest"
                FetchRequestInitializer true) as [sv0 this].
    apply (Grows_trans _ _ _ H1). apply setListeners_grows, (gr_announced _ _ H1).
  - unfold WebSocketDispatcher_new.
    destruct (Dispatcher_new_grows sv scope (WebSocket_id w) "WebSocket"
                (WebSocketInitializer (WebSocket_url w)) false Ha) as [H1 _];
      [intros x []|].
    destruct (Dispatcher_new sv scope (WebSocket_id w) "WebSocket"
                (WebSocketInitializer (WebSocket_url w)) false) as [sv0 this].
    cbn [fst] in *.
    pose proof (on_grows sv0 (WebSocket_id w) WebSocket_FrameSent
                  (OnFrameSent this) (gr_announced _ _ H1)) as G1.
    pose proof (on_grows _ (WebSocket_id w) WebSocket_FrameReceived
                  (OnFrameReceived this) (gr_announced _ _ G1)) as G2.
    pose proof (on_grows _ (WebSocket_id w) WebSocket_SocketError
                  (OnSocketError this) (gr_announced _ _ G2)) as G3.
    pose proof (on_grows _ (WebSocket_id w) WebSocket_Close
                  (OnClose this) (gr_announced _ _ G3)) as G4.
    exact (Grows_trans _ _ _ H1
             (Grows_trans _ _ _ G1 (Grows_trans _ _ _ G2 (Grows_trans _ _ _ G3 G4)))).
  - now apply RequestDispatcher_from_grows.
  - unfold ResponseDispatcher_from.
    destruct (existingDispatcher sv (Response_id r)); [now apply Grows_refl|].
    destruct (RequestDispatcher_from_grows (Response_request r) sv scope Ha)
      as [H1 Hq].
    destruct (RequestDispatcher_from sv scope (Response_request r)) as [sv1 q];
      cbn [fst snd] in H1, Hq.
    destruct (Dispatcher_new_grows sv1 scope (Response_id r) "Response"
                (ResponseInitializer q (Response_url r) (Response_status r)
                   (Response_statusText r) (Response_headers r)
                   (Response_timing r))
                false (gr_announced _ _ H1)) as [H2 _].
    { intros x [<-|[]]. exact Hq. }
    exact (Grows_trans _ _ _ H1 H2).
  - unfold RouteDispatcher_from.
    destruct (existingDispatcher sv (Route_id r)); [now apply Grows_refl|].
    destruct (RequestDispatcher_from_grows (Route_request r) sv scope Ha)
      as [H1 Hq].
    destruct (RequestDispatcher_from sv scope (Route_request r)) as [sv1 q];
      cbn [fst snd] in H1, Hq.
    destruct (Dispatcher_new_grows sv1 scope (Route_id r) "Route"
                (RouteInitializer q) false (gr_announced _ _ H1)) as [H2 _].
    { intros x [<-|[]]. exact Hq. }
    exact (Grows_trans _ _ _ H1 H2).
  - now apply emit_grows.
  - destruct (decide (g ∈ table sv)); [|now apply Grows_refl].
    now apply Dispatcher_dispose_grows.
Qed.

Lemma Announced_empty : Announced emptyServer.
Proof.
  split; cbn; [exact I|]. intros o g H. now rewrite lookup_empty in H.
Qed.

(** X13. Whatever dispatchers are created, events emitted and dispatchers
    disposed, every [__create__] on the wire refers, in its initializer,
    only to dispatchers whose own [__create__] went out before it. *)
Theorem create_before_use (actions : list Action) :
  createBeforeUse [] (wire (run emptyServer actions)).
Proof.
  apply an_ordered. generalize Announced_empty. generalize emptyServer.
  induction actions as [|a actions IH]; intros sv Ha; cbn [run fold_left];
    [exact Ha|].
  apply IH. exact (gr_announced _ _ (step_grows sv a Ha)).
Qed.

(** The wire of the sample redirect: the frame, the first request, the
    request redirected from it, then the route. *)
Example create_before_use_sample :
  let r1 := MkRequest 10%positive 20%positive "http://a/" "document" "GET" None
              (VObject []) true None in
  let r2 := MkRequest 11%positive 20%positive "http://b/" "document" "GET" None
              (VObject []) true (Some r1) in
  createdGuids
    (wire (run emptyServer
             [NewRouteDispatcher 1%positive
                {| Route_id := 12%positive; Route_request := r2 |}]))
  = [1; 2; 3; 4]%positive.
Proof. reflexivity. Qed.

End DispatcherMore.
